(** * Istanbul consensus: message admission and backlog

    A shallow embedding of [checkMessage], [storeBacklog],
    [getSortedBacklogSeqs], [drainBacklogForSeq], [processBacklog] and
    [toPriority] of the Istanbul core (package [core], backlog file), with
    the properties of the admission predicate, the priority function and
    the backlog counters. Further parts embed the message set
    ([messageSetImpl]), the gas accounting of the state transition
    ([IntrinsicGas], [useGas], [gasUsed], [getEncodedAbi], the gas
    currencies) and the cache of [GetGasPriceFloor].

    Conventions of the embedding:
    - a [*big.Int] is a [Z]; a nil pointer is [None];
    - a [uint64] is a [Z] in [0, 2^64), an [int64] a [Z] in [-2^63, 2^63),
      conversions and wrap-around are written out;
    - a Go map is a [gmap]; reading an absent key of a [map[K]int] gives 0;
    - the [int] counters of the backlog are unbounded integers: they count
      parked messages and stay far from the 64-bit range;
    - a Go [error] result is an [option error], [None] being [nil];
    - a nil-pointer dereference is the outcome [Panic];
    - the mutex [backlogsMu] is held during the whole of [storeBacklog] and
      [processBacklog], which are therefore modelled as atomic state
      transformers; [go c.sendEvent(..)] is recorded as the list of events in
      the order in which the goroutines are started. *)

From Stdlib Require Import ZArith Lia List Sorted.
From stdpp Require Import gmap list sorting fin_maps.

Open Scope Z_scope.

(** ** Machine integers *)

Definition two64 : Z := 2 ^ 64.
Definition two63 : Z := 2 ^ 63.

(** [Uint64] of [big.Int]: the low 64 bits of the magnitude. *)
Definition Uint64 (x : Z) : Z := Z.abs x mod two64.

(** Conversion [uint64(x)] of an integer expression, wrapping. *)
Definition uint64 (x : Z) : Z := x mod two64.

(** Conversion [int64(x)] of a [uint64]: reinterpretation in two's
    complement. *)
Definition int64 (x : Z) : Z :=
  let y := x mod two64 in if y <? two63 then y else y - two64.

(** Unary minus on [int64], wrapping at [-2^63]. *)
Definition neg64 (x : Z) : Z := int64 (- x).

(** ** Views, message codes, messages *)

(** [istanbul.View]: two [*big.Int] fields, either of which may be nil. *)
Record View : Type := mkView { Round : option Z; Sequence : option Z }.

(** [&istanbul.View{Sequence: s, Round: r}] with both fields present. *)
Definition newView (s r : Z) : option View :=
  Some {| Round := Some r; Sequence := Some s |}.

(** The value of a view pointer whose pointer and two fields are non-nil,
    as the pair (sequence, round). *)
Definition viewFields (view : option View) : option (Z * Z) :=
  match view with
  | Some {| Round := Some r; Sequence := Some s |} => Some (s, r)
  | _ => None
  end.

(** [Cmp] of [big.Int]: -1, 0 or +1. *)
Definition bigCmp (x y : Z) : Z :=
  match x ?= y with
  | Lt => -1
  | Eq => 0
  | Gt => 1
  end.

(** Modelled from the spec: [istanbul.View.Cmp] is declared outside the
    source files at hand. Section 4.1: lexicographic, the sequence first,
    the round as tie-break; the result is -1, 0 or +1. Views are given by
    their (sequence, round) values. *)
Definition Cmp (v y : Z * Z) : Z :=
  if negb (bigCmp (fst v) (fst y) =? 0) then bigCmp (fst v) (fst y)
  else if negb (bigCmp (snd v) (snd y) =? 0) then bigCmp (snd v) (snd y)
  else 0.

(** Modelled from the spec: the message codes of package [istanbul] are
    declared outside the source files at hand. Section 3 fixes the closed
    set of kinds and [Preprepare < Prepare < Commit] on the integer
    encoding; the codes are consecutive [uint64] constants. *)
Definition MsgPreprepare : Z := 0.
Definition MsgPrepare : Z := 1.
Definition MsgCommit : Z := 2.
Definition MsgRoundChange : Z := 3.

(** The four kinds of the protocol, as a predicate on codes. *)
Definition isKind (code : Z) : bool :=
  (code =? MsgPreprepare) || (code =? MsgPrepare) ||
  (code =? MsgCommit) || (code =? MsgRoundChange).

(** [common.Address], 20 bytes, by its numeric value. *)
Abbreviation Address := N.

(** [istanbul.Message]. The RLP payload [Msg] is kept by what [msg.Decode]
    makes of it: [None] when decoding returns an error, [Some v] when it
    succeeds and the decoded [Preprepare], [Subject] or [RoundChange] has
    [v] as its [View] pointer. *)
Record Message : Type := mkMessage {
  MsgAddress : Address;
  Code : Z;
  Msg : option (option View)
}.

(** ** The state the core consults *)

Inductive State : Type :=
| StateAcceptRequest
| StatePreprepared
| StatePrepared
| StateCommitted
| StateWaitingForNewRound.

Definition State_eqb (a b : State) : bool :=
  match a, b with
  | StateAcceptRequest, StateAcceptRequest
  | StatePreprepared, StatePreprepared
  | StatePrepared, StatePrepared
  | StateCommitted, StateCommitted
  | StateWaitingForNewRound, StateWaitingForNewRound => true
  | _, _ => false
  end.

(** The errors of the package, and an error handed up from the backend. *)
Inductive error : Type :=
| errInvalidMessage
| errFutureMessage
| errOldMessage
| errTooFarInTheFutureMessage
| errBackend (reason : nat).

(** The fields of [core] read by the admission and backlog code:
    [c.Address()], the round state [c.current] (sequence, round, desired
    round), [c.state], the outcome of [c.backend.LastSubject()] (an error,
    or a subject given by the value of its view) and the addresses of the
    validator set [c.valSet]. *)
Record core : Type := mkCore {
  selfAddress : Address;
  currentSequence : Z;
  currentRound : Z;
  DesiredRound : Z;
  state : State;
  LastSubject : nat + Z * Z;
  valSet : list Address
}.

(** [c.currentView()]. *)
Definition currentView (c : core) : Z * Z := (currentSequence c, currentRound c).

(** ** Constants of the backlog *)

Definition acceptMaxFutureSequence : Z := 10.
Definition acceptMaxFutureMsgsFromOneValidator : Z := 1000.
Definition acceptMaxFutureMessages : Z := 10 * 1000.
Definition acceptMaxFutureMessagesPruneBatch : Z := 100.

(** [msgPriority]: a Go map, so a code without entry reads 0. *)
Definition msgPriority (code : Z) : Z :=
  if code =? MsgPreprepare then 1
  else if code =? MsgCommit then 2
  else if code =? MsgPrepare then 3
  else 0.

(** ** toPriority *)

(** The arithmetic of [toPriority] on a round that is present:
    [-int64(round.Uint64()*10 + uint64(msgPriority[msgCode]))]. *)
Definition priorityOfRound (msgCode round : Z) : Z :=
  neg64 (int64 (uint64 (Uint64 round * 10 + uint64 (msgPriority msgCode)))).

(** [toPriority]. The view is read only for codes other than
    [MsgRoundChange]; [None] is the nil dereference of [view.Round]. *)
Definition toPriority (msgCode : Z) (view : option View) : option Z :=
  if msgCode =? MsgRoundChange then Some 0
  else match view with
       | Some {| Round := Some r |} => Some (priorityOfRound msgCode r)
       | _ => None
       end.

(** ** checkMessage *)

Definition checkMessage (c : core) (msgCode : Z) (view : option View)
  : option error :=
  match viewFields view with
  | None => Some errInvalidMessage
  | Some (vs, vr) =>
    if bigCmp vs (currentSequence c + acceptMaxFutureSequence) >? 0 then
      Some errTooFarInTheFutureMessage
    else if msgCode =? MsgRoundChange then
      if bigCmp vs (currentSequence c) >? 0 then Some errFutureMessage
      else if bigCmp vr (DesiredRound c) <? 0 then Some errOldMessage
      else None
    else if Cmp (vs, vr) (currentView c) >? 0 then Some errFutureMessage
    else if Cmp (vs, vr) (currentView c) <? 0 then
      if msgCode =? MsgCommit then
        match LastSubject c with
        | inl e => Some (errBackend e)
        | inr lastView =>
          if Cmp (vs, vr) lastView =? 0 then None else Some errOldMessage
        end
      else Some errOldMessage
    else if State_eqb (state c) StateWaitingForNewRound then
      Some errFutureMessage
    else if State_eqb (state c) StateAcceptRequest then
      if msgCode >? MsgPreprepare then Some errFutureMessage else None
    else None
  end.

(** The five outcomes named by the specification. *)
Definition Admit : option error := None.
Definition Future : option error := Some errFutureMessage.
Definition Old : option error := Some errOldMessage.
Definition Invalid : option error := Some errInvalidMessage.
Definition TooFar : option error := Some errTooFarInTheFutureMessage.

(** ** The priority queue of the backlog *)

(** Modelled from the spec: package [common/prque] is outside the source
    files at hand. Invariant I6: within a per-sequence queue, pops return
    the messages in priority order; scenario 3 of section 8 and the source
    comment of [toPriority] ("msgRoundChange comes first", with priority 0
    against negative priorities for the other kinds) fix the direction:
    the greatest priority is popped first. (The words "smaller = higher
    priority" of section 4.2 cannot be meant for the numbers [toPriority]
    returns: [RoundChange], at 0, would come last, against the same
    section's "Round-change outranks all".) The queue is kept as the list of
    its (item, priority) pairs in pop order; among equal priorities the
    model pops in insertion order, which the library leaves open and on
    which no property below relies. *)
Module prque.
Definition Prque (A : Type) : Type := list (A * Z).

Definition New {A : Type} : Prque A := [].

Fixpoint Push {A : Type} (x : A) (p : Z) (q : Prque A) : Prque A :=
  match q with
  | [] => [(x, p)]
  | (y, py) :: q' =>
    if py <? p then (x, p) :: (y, py) :: q' else (y, py) :: Push x p q'
  end.

Definition Empty {A : Type} (q : Prque A) : bool :=
  match q with [] => true | _ => false end.

Definition PopItem {A : Type} (q : Prque A) : option (A * Prque A) :=
  match q with [] => None | (x, _) :: q' => Some (x, q') end.

Definition Size {A : Type} (q : Prque A) : Z := Z.of_nat (length q).
End prque.

(** ** The backlog *)

(** The three backlog fields of [core]. *)
Record backlog : Type := mkBacklog {
  backlogBySeq : gmap Z (prque.Prque Message);
  backlogCountByVal : gmap N Z;
  backlogTotal : Z
}.

Definition emptyBacklog : backlog :=
  {| backlogBySeq := ∅; backlogCountByVal := ∅; backlogTotal := 0 |}.

(** Reading [m[a]] in a [map[common.Address]int]. *)
Definition countOf (m : gmap N Z) (a : Address) : Z := default 0 (m !! a).

(** The result of a call that may dereference nil. *)
Inductive outcome (A : Type) : Type :=
| Returns (a : A)
| Panic.
Arguments Returns {A} a.
Arguments Panic {A}.

(** [backlogEvent]; a validator is given by its address. *)
Record backlogEvent : Type := mkEvent { src : Address; msg : Message }.

(** [c.valSet.GetByAddress]: the validator, or nil. *)
Definition GetByAddress (c : core) (a : Address) : option Address :=
  if existsb (N.eqb a) (valSet c) then Some a else None.

(** [getSortedBacklogSeqs]: the keys of [backlogBySeq], ascending. *)
Definition getSortedBacklogSeqs (b : backlog) : list Z :=
  merge_sort Z.le (elements (dom (backlogBySeq b))).

(** The loop of [drainBacklogForSeq] over the queue in pop order: the
    callback (when given, and when the sender is still a validator), then
    the two decrements. The events the callback posts are collected. *)
Fixpoint drainLoop (c : core)
    (cb : option (Message → Address → list backlogEvent))
    (q : prque.Prque Message) (counts : gmap N Z) (total : Z)
  : gmap N Z * Z * list backlogEvent :=
  match q with
  | [] => (counts, total, [])
  | (m, _) :: q' =>
    let posted :=
      match cb with
      | None => []
      | Some f =>
        match GetByAddress c (MsgAddress m) with
        | Some s => f m s
        | None => []
        end
      end in
    let counts' := <[MsgAddress m := countOf counts (MsgAddress m) - 1]> counts in
    let '(cs, t, evs) := drainLoop c cb q' counts' (total - 1) in
    (cs, t, posted ++ evs)
  end.

(** [drainBacklogForSeq]. *)
Definition drainBacklogForSeq (c : core) (seq : Z)
    (cb : option (Message → Address → list backlogEvent)) (b : backlog)
  : backlog * list backlogEvent :=
  match backlogBySeq b !! seq with
  | None => (b, [])
  | Some q =>
    let '(cs, t, evs) := drainLoop c cb q (backlogCountByVal b) (backlogTotal b) in
    ({| backlogBySeq := delete seq (backlogBySeq b);
        backlogCountByVal := cs;
        backlogTotal := t |}, evs)
  end.

(** The [switch msg.Code] of [storeBacklog]: [None] is the early return
    on a decoding error, [Some v] the value of [v] after the switch; a
    code without case leaves [v] nil. *)
Definition storeSwitch (m : Message) : option (option View) :=
  if Code m =? MsgPreprepare then Msg m
  else if (Code m =? MsgPrepare) || (Code m =? MsgCommit) then Msg m
  else if Code m =? MsgRoundChange then Msg m
  else Some None.

(** The pruning loop of [storeBacklog], over [backlogSeqs[len-1]] down to
    [backlogSeqs[1]]. *)
Fixpoint pruneLoop (c : core) (seqs : list Z) (b : backlog) : backlog :=
  match seqs with
  | [] => b
  | seq :: rest =>
    if (seq <=? Uint64 (currentSequence c)) ||
       (backlogTotal b <?
        acceptMaxFutureMessages - acceptMaxFutureMessagesPruneBatch)
    then b
    else pruneLoop c rest (fst (drainBacklogForSeq c seq None b))
  end.

(** [storeBacklog]; [s] is [src.Address()]. *)
Definition storeBacklog (c : core) (m : Message) (s : Address) (b : backlog)
  : outcome backlog :=
  if N.eqb (MsgAddress m) (selfAddress c) then Returns b
  else
    match storeSwitch m with
    | None => Returns b
    | Some v =>
      if countOf (backlogCountByVal b) (MsgAddress m)
           >? acceptMaxFutureMsgsFromOneValidator
      then Returns b
      else
        let counts := <[s := countOf (backlogCountByVal b) s + 1]>
                        (backlogCountByVal b) in
        let total := backlogTotal b + 1 in
        match v with
        | Some {| Sequence := Some vseq |} =>
          let key := Uint64 vseq in
          let backlogForSeq := default prque.New (backlogBySeq b !! key) in
          match toPriority (Code m) v with
          | None => Panic
          | Some prio =>
            let b' := {| backlogBySeq :=
                           <[key := prque.Push m prio backlogForSeq]>
                             (backlogBySeq b);
                         backlogCountByVal := counts;
                         backlogTotal := total |} in
            if total >? acceptMaxFutureMessages then
              Returns (pruneLoop c (rev (tail (getSortedBacklogSeqs b'))) b')
            else Returns b'
          end
        | _ => Panic
        end
    end.

(** The [switch msg.Code] of the replay callback: a decoding error and a
    code without case both leave [view] nil. *)
Definition replaySwitch (m : Message) : option View :=
  if Code m =? MsgPreprepare then default None (Msg m)
  else if (Code m =? MsgPrepare) || (Code m =? MsgCommit) then
    default None (Msg m)
  else if Code m =? MsgRoundChange then default None (Msg m)
  else None.

(** The callback [processBacklog] passes for the current sequence. *)
Definition replayCallback (c : core) (m : Message) (s : Address)
  : list backlogEvent :=
  match replaySwitch m with
  | None => []
  | Some view =>
    match checkMessage c (Code m) (Some view) with
    | Some _ => []
    | None => [{| src := s; msg := m |}]
    end
  end.

(** The [for _, seq := range] loop of [processBacklog]. *)
Fixpoint processLoop (c : core) (seqs : list Z) (b : backlog)
  : backlog * list backlogEvent :=
  match seqs with
  | [] => (b, [])
  | seq :: rest =>
    if seq <? Uint64 (currentSequence c) then
      processLoop c rest (fst (drainBacklogForSeq c seq None b))
    else if seq =? Uint64 (currentSequence c) then
      let '(b', evs) := drainBacklogForSeq c seq (Some (replayCallback c)) b in
      let '(b'', evs') := processLoop c rest b' in
      (b'', evs ++ evs')
    else (b, [])
  end.

(** [processBacklog]: the backlog afterwards and the events posted. *)
Definition processBacklog (c : core) (b : backlog)
  : backlog * list backlogEvent :=
  processLoop c (getSortedBacklogSeqs b) b.

(** * Definitions for the statements *)

(** ** Comparisons *)

(** The lexicographic order of section 4.1 on (sequence, round). *)
Definition viewLt (v y : Z * Z) : Prop :=
  fst v < fst y ∨ (fst v = fst y ∧ snd v < snd y).

(** ** The priority function *)

(** The three kinds that carry a weight. *)
Definition weightedKind (k : Z) : Prop :=
  k = MsgPreprepare ∨ k = MsgPrepare ∨ k = MsgCommit.

(** ** The admission predicate *)

(** The [RoundChange] rule in the words of section 4.3: [Future] above the
    current sequence, [Old] on the current sequence below the desired
    round, [Admit] otherwise. *)
Definition roundChangeAsSpecified (c : core) (vs vr : Z) : option error :=
  if vs >? currentSequence c then Future
  else if (vs =? currentSequence c) && (vr <? DesiredRound c) then Old
  else Admit.

(** The [RoundChange] rule as the code applies it: the round is compared
    with the desired round on every sequence that is not in the future. *)
Definition roundChangeRule (c : core) (vs vr : Z) : option error :=
  if vs >? currentSequence c then Future
  else if vr <? DesiredRound c then Old
  else Admit.

(** Scenario 6: current view (5, 2), desired round 4. *)
Definition coreAt52 : core :=
  {| selfAddress := 0%N; currentSequence := 5; currentRound := 2;
     DesiredRound := 4; state := StatePreprepared;
     LastSubject := inr (4, 0); valSet := [] |}.

(** Scenario 1: current view (10, 0), state [AcceptRequest], the last
    committed subject at view (9, 3). *)
Definition coreAt10 : core :=
  {| selfAddress := 0%N; currentSequence := 10; currentRound := 0;
     DesiredRound := 0; state := StateAcceptRequest;
     LastSubject := inr (9, 3); valSet := [] |}.

(** The core of scenario 1 when the backend cannot give the last
    committed subject. *)
Definition coreAt10NoSubject : core :=
  {| selfAddress := 0%N; currentSequence := 10; currentRound := 0;
     DesiredRound := 0; state := StateAcceptRequest;
     LastSubject := inl 7%nat; valSet := [] |}.

(** The five outcomes of the specification. *)
Definition fiveOutcomes (r : option error) : Prop :=
  r = Admit ∨ r = Future ∨ r = Old ∨ r = Invalid ∨ r = TooFar.

(** ** Sums over the backlog maps *)

(** The sum of [f] over the values of a finite map. *)
Definition mapSum {K : Type} `{Countable K} {A : Type} (f : A → Z)
    (m : gmap K A) : Z :=
  map_fold (λ _ x acc, f x + acc) 0 m.

(** The sum over all per-sender counters. *)
Definition sumCounts (m : gmap N Z) : Z := mapSum (λ x, x) m.

(** The sum of the sizes of all per-sequence queues. *)
Definition sumQueues (m : gmap Z (prque.Prque Message)) : Z :=
  mapSum prque.Size m.

(** Invariant I2: the global counter, the per-sender counters and the
    queues agree. *)
Definition countersConsistent (b : backlog) : Prop :=
  backlogTotal b = sumCounts (backlogCountByVal b) ∧
  sumCounts (backlogCountByVal b) = sumQueues (backlogBySeq b).

(** ** Sequences of calls *)

(** The two public operations on the backlog; the core fields they read
    may differ from one call to the next. *)
Inductive backlogOp : Type :=
| opStore (c : core) (m : Message) (s : Address)
| opProcess (c : core).

Definition runOp (o : backlogOp) (b : backlog) : outcome backlog :=
  match o with
  | opStore c m s => storeBacklog c m s b
  | opProcess c => Returns (fst (processBacklog c b))
  end.

(** A sequence of calls, stopped by the first panic. *)
Fixpoint runOps (ops : list backlogOp) (b : backlog) : outcome backlog :=
  match ops with
  | [] => Returns b
  | o :: rest =>
    match runOp o b with
    | Returns b' => runOps rest b'
    | Panic => Panic
    end
  end.

(** Scenario 3: a core at sequence 5 that parks messages, the same core
    once it has moved to view (6, 0), and the four messages for (6, 0). *)
Definition coreAt5 : core :=
  {| selfAddress := 99%N; currentSequence := 5; currentRound := 0;
     DesiredRound := 0; state := StatePreprepared;
     LastSubject := inr (4, 0); valSet := [1%N; 2%N; 3%N; 4%N] |}.

Definition coreAt6 (st : State) : core :=
  {| selfAddress := 99%N; currentSequence := 6; currentRound := 0;
     DesiredRound := 0; state := st;
     LastSubject := inr (5, 0); valSet := [1%N; 2%N; 3%N; 4%N] |}.

Definition messageAt (sender : Address) (code s r : Z) : Message :=
  {| MsgAddress := sender; Code := code; Msg := Some (newView s r) |}.

Definition scenario3Stores : list backlogOp :=
  [ opStore coreAt5 (messageAt 1 MsgPrepare 6 0) 1%N;
    opStore coreAt5 (messageAt 2 MsgPreprepare 6 0) 2%N;
    opStore coreAt5 (messageAt 3 MsgCommit 6 0) 3%N;
    opStore coreAt5 (messageAt 4 MsgRoundChange 6 0) 4%N ].

(** ** Replay *)

(** The queue a backlog holds for a sequence; empty when there is none. *)
Definition queueAt (b : backlog) (seq : Z) : prque.Prque Message :=
  default prque.New (backlogBySeq b !! seq).

(** What draining one queue entry posts under the replay callback. *)
Definition replayPost (c : core) (x : Message * Z) : list backlogEvent :=
  match GetByAddress c (MsgAddress (fst x)) with
  | Some s => replayCallback c (fst x) s
  | None => []
  end.

(** The sequence number replay compares the keys with. *)
Definition currentKey (c : core) : Z := Uint64 (currentSequence c).

(** Scenario 5: entries parked for sequences 3 and 4 while the core was at
    sequence 2, replayed at view (5, 0). *)
Definition coreAt2 : core :=
  {| selfAddress := 99%N; currentSequence := 2; currentRound := 0;
     DesiredRound := 0; state := StatePreprepared;
     LastSubject := inr (1, 0); valSet := [1%N; 2%N; 3%N; 4%N] |}.

Definition scenario5Stores : list backlogOp :=
  [ opStore coreAt2 (messageAt 1 MsgPrepare 3 0) 1%N;
    opStore coreAt2 (messageAt 2 MsgPreprepare 4 0) 2%N;
    opStore coreAt2 (messageAt 3 MsgCommit 4 1) 3%N ].

Definition scenario5Backlog : backlog :=
  match runOps scenario5Stores emptyBacklog with
  | Returns b => b
  | Panic => emptyBacklog
  end.

(** ** Order of replay *)







Definition scenario3Backlog : backlog :=
  match runOps scenario3Stores emptyBacklog with
  | Returns b => b
  | Panic => emptyBacklog
  end.

(** ** The per-sender cap *)

(** One sender, address 1, parking the same future message [n] times. *)
Definition floodOps (n : nat) : list backlogOp :=
  repeat (opStore coreAt5 (messageAt 1 MsgPrepare 6 0) 1%N) n.

Definition floodedBacklog : backlog :=
  match runOps (floodOps 1001) emptyBacklog with
  | Returns b => b
  | Panic => emptyBacklog
  end.

(** ** Nil dereference in storeBacklog *)

(** A payload that, when it decodes, gives a view with its pointer, its
    sequence and its round present. The decoder is outside the source
    files at hand, so this is a premise where it is needed. *)
Definition decodesWellFormed (m : Message) : Prop :=
  ∀ v, Msg m = Some v → is_Some (viewFields v).

(** A message with a code outside the four kinds, from sender 1. *)
Definition strayMessage : Message :=
  {| MsgAddress := 1%N; Code := 7; Msg := None |}.

(** A call that passes the validator of the message's own sender, as the
    callers of [storeBacklog] do. *)
Definition senderMatches (o : backlogOp) : Prop :=
  match o with
  | opStore _ m s => s = MsgAddress m
  | opProcess _ => True
  end.

(** No per-sender counter exceeds the cap by more than one. *)
Definition countersCapped (b : backlog) : Prop :=
  ∀ a, countOf (backlogCountByVal b) a
       ≤ acceptMaxFutureMsgsFromOneValidator + 1.


(** * Further definitions for the statements *)

(** ** Admission: who is admitted, who is parked *)

(** The view [y] is strictly above the view [v]. *)
Definition viewGt (v y : Z * Z) : Prop := viewLt y v.

(** A core at view (10, 2) waiting for a proposal, desired round 2. *)
Definition coreAwaiting : core :=
  {| selfAddress := 0%N; currentSequence := 10; currentRound := 2;
     DesiredRound := 2; state := StateAcceptRequest;
     LastSubject := inr (9, 0); valSet := [] |}.

(** ** Invariants of the backlog *)

(** The backlog right after the two increments and the push of
    [storeBacklog], before any pruning. *)
Definition pushedBacklog (m : Message) (s : Address) (prio key : Z)
    (b : backlog) : backlog :=
  {| backlogBySeq :=
       <[key := prque.Push m prio (default prque.New (backlogBySeq b !! key))]>
         (backlogBySeq b);
     backlogCountByVal :=
       <[s := countOf (backlogCountByVal b) s + 1]> (backlogCountByVal b);
     backlogTotal := backlogTotal b + 1 |}.

(** A property of every queue of a backlog, under its key. *)
Definition queuesAll (P : Z → prque.Prque Message → Prop) (b : backlog)
  : Prop :=
  ∀ k q, backlogBySeq b !! k = Some q → P k q.

(** Every call is made by the core whose own address is [self]. *)
Definition calledBy (self : Address) (o : backlogOp) : Prop :=
  match o with
  | opStore c _ _ => selfAddress c = self
  | opProcess c => selfAddress c = self
  end.

(** The message is parked under the sequence number of its own view. *)
Definition filedUnder (k : Z) (x : Message * Z) : Prop :=
  ∃ v vseq, replaySwitch (fst x) = Some v ∧ Sequence v = Some vseq ∧
            Uint64 vseq = k.

(** The number of entries of a queue that come from sender [a]. *)
Definition parkedFrom (a : Address) (q : prque.Prque Message) : Z :=
  Z.of_nat (length (filter (λ x, MsgAddress (fst x) = a) q)).

(** The number of queues of a backlog. *)
Definition queueCount (b : backlog) : nat := size (backlogBySeq b).

(** The per-sender counter of [a] is the number of parked messages whose
    sender is [a]. *)
Definition countsExact (b : backlog) : Prop :=
  ∀ a, countOf (backlogCountByVal b) a
       = mapSum (parkedFrom a) (backlogBySeq b).

(** Scenario 4, scaled down to what one sender may park: a core at
    sequence 5 and a message of sender [a] for view ([s], 0). *)
Definition prepareAt (a : Address) (s : Z) : Message :=
  messageAt a MsgPrepare s 0.

(** ** Scenario: the backlog under pressure *)

(** Sender [a] parking [n] messages for sequence [s], of rounds [n] down
    to 1, at a core that is at sequence 5. *)
Fixpoint floodFrom (a : Address) (s : Z) (n : nat) : list backlogOp :=
  match n with
  | O => []
  | S n' => opStore coreAt5 (messageAt a MsgPrepare s (Z.of_nat n)) a
            :: floodFrom a s n'
  end.

(** Ten senders, 1000 messages each, spread over the sequences 6, 7
    and 8: 3000, 4000 and 3000 messages, the global counter at the cap. *)
Definition pressureOps : list backlogOp :=
  concat (map (λ i, floodFrom (N.of_nat i) (6 + Z.of_nat (i mod 3)) 1000)
              (seq 1 10)).

Definition pressureBacklog : backlog :=
  match runOps pressureOps emptyBacklog with
  | Returns b => b
  | Panic => emptyBacklog
  end.

(** One more message, of an eleventh sender, for sequence 8. *)
Definition pressureAfter : backlog :=
  match storeBacklog coreAt5 (prepareAt 11 8) 11%N pressureBacklog with
  | Returns b => b
  | Panic => emptyBacklog
  end.

(** The scenario, evaluated once: the ten thousand stores return with
    the counter at 10000 and queues for 6, 7 and 8; the next store
    returns with the counter at 7000, queues for 6 and 7, and the queue
    for 6 as it was. *)
Definition pressureCheck : bool :=
  match runOps pressureOps emptyBacklog with
  | Returns b =>
    (backlogTotal b =? 10000) &&
    bool_decide (getSortedBacklogSeqs b = [6; 7; 8]) &&
    match storeBacklog coreAt5 (prepareAt 11 8) 11%N b with
    | Returns b' =>
      (backlogTotal b' =? 7000) &&
      bool_decide (getSortedBacklogSeqs b' = [6; 7]) &&
      (prque.Size (queueAt b' 6) =? 3000)
    | Panic => false
    end
  | Panic => false
  end.

(** * The message set *)

(** [messageSetImpl] (the file of [newMessageSet]): the validator set, by
    its addresses, and the messages by sender. The mutex [messagesMu] is
    held by every method for its whole body and is not modelled. *)
Record messageSet : Type := mkMessageSet {
  msValSet : list Address;
  messages : gmap N Message
}.

(** [newMessageSet]. *)
Definition newMessageSet (vals : list Address) : messageSet :=
  {| msValSet := vals; messages := ∅ |}.

(** Modelled from the spec: [istanbul.ValidatorSet.ContainsByAddress] is
    declared outside the source files at hand; section 6 has the
    validator set as a lookup by address. Membership in the list of
    validator addresses. *)
Definition ContainsByAddress (vals : list Address) (a : Address) : bool :=
  existsb (N.eqb a) vals.

(** [istanbul.ErrUnauthorizedAddress]. *)
Inductive istanbulError : Type := ErrUnauthorizedAddress.

(** [Add]: the error returned and the set afterwards. *)
Definition msAdd (ms : messageSet) (m : Message)
  : option istanbulError * messageSet :=
  if negb (ContainsByAddress (msValSet ms) (MsgAddress m)) then
    (Some ErrUnauthorizedAddress, ms)
  else
    (None, {| msValSet := msValSet ms;
              messages := <[MsgAddress m := m]> (messages ms) |}).

(** [Remove]. *)
Definition msRemove (ms : messageSet) (a : Address) : messageSet :=
  {| msValSet := msValSet ms; messages := delete a (messages ms) |}.

(** [Get]: the message, or nil. *)
Definition msGet (ms : messageSet) (a : Address) : option Message :=
  messages ms !! a.

(** [Size]. *)
Definition msSize (ms : messageSet) : nat := size (messages ms).

(** [Values]: the messages in the order of one iteration over the map (Go
    leaves that order open; the properties below do not depend on it). *)
Definition msValues (ms : messageSet) : list Message :=
  (map_to_list (messages ms)).*2.

(** The calls that change a message set. *)
Inductive msOp : Type :=
| msOpAdd (m : Message)
| msOpRemove (a : Address).

Definition msRunOp (ms : messageSet) (o : msOp) : messageSet :=
  match o with
  | msOpAdd m => snd (msAdd ms m)
  | msOpRemove a => msRemove ms a
  end.

Definition msRunOps (ops : list msOp) (ms : messageSet) : messageSet :=
  fold_left msRunOp ops ms.

(** The loop of [DecodeRLP] over [decoded.messageKeys], reading
    [decoded.messageValues[i]]: [Panic] is the index out of range. *)
Fixpoint decodeLoop (i : nat) (keys : list Address) (values : list Message)
    (acc : gmap N Message) : outcome (gmap N Message) :=
  match keys with
  | [] => Returns acc
  | addr :: rest =>
    match values !! i with
    | Some v => decodeLoop (S i) rest values (<[addr := v]> acc)
    | None => Panic
    end
  end.

(** [DecodeRLP], on what [stream.Decode] made of the stream: [None] for
    its error (the set is left as it is), or the three decoded fields. *)
Definition msDecodeRLP (ms : messageSet)
    (decoded : option (list Address * list Address * list Message))
  : outcome (bool * messageSet) :=
  match decoded with
  | None => Returns (false, ms)
  | Some (vals, keys, values) =>
    match decodeLoop 0 keys values ∅ with
    | Returns msgs => Returns (true, {| msValSet := vals; messages := msgs |})
    | Panic => Panic
    end
  end.

(** Every message is filed under its own sender, who is a validator. *)
Definition msWellFormed (ms : messageSet) : Prop :=
  ∀ a m, messages ms !! a = Some m → MsgAddress m = a ∧ In a (msValSet ms).

(** * State transition: gas accounting *)

(** The constants of package [params] that [IntrinsicGas] reads. They are
    declared outside the source files at hand and are a parameter of the
    model. *)
Record gasParams : Type := mkGasParams {
  TxGas : Z;
  TxGasContractCreation : Z;
  TxDataZeroGas : Z;
  TxDataNonZeroGas : Z
}.

(** [math.MaxUint64]. *)
Definition MaxUint64 : Z := two64 - 1.

(** [vm.ErrOutOfGas]. *)
Inductive vmError : Type := ErrOutOfGas.

(** The counting loop of [IntrinsicGas]: [nz++] for every non-zero byte,
    in [uint64]. *)
Fixpoint countNonZero (data : list Z) (nz : Z) : Z :=
  match data with
  | [] => nz
  | byt :: rest =>
    countNonZero rest (if negb (byt =? 0) then uint64 (nz + 1) else nz)
  end.

(** [IntrinsicGas]; all arithmetic is [uint64] arithmetic. *)
Definition IntrinsicGas (P : gasParams) (data : list Z)
    (contractCreation homestead : bool) : Z * option vmError :=
  let gas := if contractCreation && homestead
             then TxGasContractCreation P else TxGas P in
  if 0 <? Z.of_nat (length data) then
    let nz := countNonZero data 0 in
    if uint64 (MaxUint64 - gas) / TxDataNonZeroGas P <? nz then
      (0, Some ErrOutOfGas)
    else
      let gas := uint64 (gas + uint64 (nz * TxDataNonZeroGas P)) in
      let z := uint64 (uint64 (Z.of_nat (length data)) - nz) in
      if uint64 (MaxUint64 - gas) / TxDataZeroGas P <? z then
        (0, Some ErrOutOfGas)
      else (uint64 (gas + uint64 (z * TxDataZeroGas P)), None)
  else (gas, None).

(** The constants are [uint64] values and the two data prices are not 0
    (the code divides by them). *)
Definition gasParamsOK (P : gasParams) : Prop :=
  0 ≤ TxGas P < two64 ∧ 0 ≤ TxGasContractCreation P < two64 ∧
  0 < TxDataZeroGas P < two64 ∧ 0 < TxDataNonZeroGas P < two64.

(** The number of non-zero bytes and the gas a message would cost in
    unbounded arithmetic. *)
Definition nonZeroBytes (data : list Z) : Z :=
  Z.of_nat (length (filter (λ byt, byt ≠ 0) data)).

Definition exactIntrinsicGas (P : gasParams) (data : list Z)
    (contractCreation homestead : bool) : Z :=
  (if contractCreation && homestead then TxGasContractCreation P else TxGas P)
  + nonZeroBytes data * TxDataNonZeroGas P
  + (Z.of_nat (length data) - nonZeroBytes data) * TxDataZeroGas P.

(** The values the constants have in the protocol: 21000, 53000, 4, 68. *)
Definition protocolGasParams : gasParams :=
  {| TxGas := 21000; TxGasContractCreation := 53000;
     TxDataZeroGas := 4; TxDataNonZeroGas := 68 |}.

(** The gas fields of [StateTransition]. *)
Record gasState : Type := mkGasState { gas : Z; initialGas : Z }.

(** [useGas]. *)
Definition useGas (st : gasState) (amount : Z) : gasState * option vmError :=
  if gas st <? amount then (st, Some ErrOutOfGas)
  else ({| gas := uint64 (gas st - amount); initialGas := initialGas st |},
        None).

(** [gasUsed]. *)
Definition gasUsed (st : gasState) : Z := uint64 (initialGas st - gas st).

(** A series of [useGas] calls: the state afterwards and the total of
    the amounts that were charged. *)
Fixpoint useGasAll (st : gasState) (amounts : list Z) : gasState * Z :=
  match amounts with
  | [] => (st, 0)
  | a :: rest =>
    let '(st', err) := useGas st a in
    let '(st'', charged) := useGasAll st' rest in
    (st'', match err with None => a + charged | Some _ => charged end)
  end.

(** ** Call data *)

(** [copy(dst[lo:hi], src)] on a slice of bytes: the first
    [min(hi-lo, len(src))] bytes of [src] overwrite [dst] from [lo]. *)
Definition copyInto (dst : list Z) (lo hi : nat) (src : list Z) : list Z :=
  take lo dst ++ take (hi - lo) src
  ++ drop (lo + Nat.min (hi - lo) (length src)) dst.

(** [getEncodedAbi]. *)
Definition getEncodedAbi (methodSelector var1Abi var2Abi : list Z) : list Z :=
  let n := (length methodSelector + length var1Abi + length var2Abi)%nat in
  let encodedAbi := replicate n 0 in
  let encodedAbi :=
    copyInto encodedAbi 0 (length methodSelector) methodSelector in
  let encodedAbi :=
    copyInto encodedAbi (length methodSelector)
      (length methodSelector + length var1Abi) var1Abi in
  copyInto encodedAbi (length methodSelector + length var1Abi) n var2Abi.

(** ** Gas currencies *)

(** The loop of [maybeInitCurrencyAddresses] over the EVM's list. *)
Definition currencySet (l : list Address) : gmap N bool :=
  fold_left (λ m a, <[a := true]> m) l ∅.

(** [maybeInitCurrencyAddresses], on the package variable
    [currencyAddresses] (nil or a map) and [st.evm.CurrencyAddresses]
    (nil or a list). *)
Definition maybeInitCurrencyAddresses (evmCurrencies : option (list Address))
    (currencyAddresses : option (gmap N bool)) : option (gmap N bool) :=
  match currencyAddresses, evmCurrencies with
  | None, Some l => Some (currencySet l)
  | _, _ => currencyAddresses
  end.

(** [isValidGasCurrency]. *)
Definition isValidGasCurrency (currencyAddresses : option (gmap N bool))
    (gasCurrency : Address) : bool :=
  match currencyAddresses with
  | Some m => default false (m !! gasCurrency)
  | None => false
  end.

(** The first non-nil list among the EVMs of a series of transitions. *)
Fixpoint firstCurrencies (evms : list (option (list Address)))
  : option (list Address) :=
  match evms with
  | [] => None
  | Some l :: _ => Some l
  | None :: rest => firstCurrencies rest
  end.

(** * The gas price floor and its cache *)

(** The errors [GetGasPriceFloor] returns: its three own ones and
    whatever the static call returns. *)
Inductive gasPriceError : Type :=
| errNilParameters
| errNoGoldToken
| errNoGasPriceOracle
| errStaticCall (reason : nat).

(** What [GetGasPriceFloor] uses of a [StaticEvmHandler]: the hash of
    [CurrentHeader()], and [MakeStaticCall] of "getGasPriceFloor" on the
    oracle at the first address for the currency at the second, giving
    the value left in [gasPriceFloor] (nil when nothing was written) and
    the error. *)
Record StaticEvmHandler : Type := mkHandler {
  CurrentHeaderHash : N;
  MakeStaticCall : Address → Address → option Z * option nat
}.

(** What it uses of an [AddressRegistry]: [GetRegisteredAddress] for
    the gold token and for the gas price oracle, nil when unregistered. *)
Record AddressRegistry : Type := mkRegistry {
  GoldTokenAddress : option Address;
  GasPriceOracleAddress : option Address
}.

(** The package variables [gasPriceFloorCache] and [cacheHeaderHash];
    the lock [cacheMu] is held while they are used. *)
Record floorCache : Type := mkFloorCache {
  gasPriceFloorCache : gmap N (option Z);
  cacheHeaderHash : N
}.

(** The cache after the comparison with the hash of the current
    header. *)
Definition refreshCache (g : floorCache) (currentHeaderHash : N)
  : floorCache :=
  if negb (N.eqb (cacheHeaderHash g) currentHeaderHash) then
    {| gasPriceFloorCache := ∅; cacheHeaderHash := currentHeaderHash |}
  else g.

(** [GetGasPriceFloor]: the two results and the package variables
    afterwards. *)
Definition GetGasPriceFloor (g : floorCache) (iEvmH : option StaticEvmHandler)
    (regAdd : option AddressRegistry) (currencyAddress : option Address)
  : (option Z * option gasPriceError) * floorCache :=
  let fallbackGasPriceFloor := Some 0 in
  match iEvmH, regAdd with
  | Some h, Some r =>
    let resolved :=
      match currencyAddress with
      | Some a => Some a
      | None => GoldTokenAddress r
      end in
    match resolved with
    | None => ((fallbackGasPriceFloor, Some errNoGoldToken), g)
    | Some currency =>
      let g1 := refreshCache g (CurrentHeaderHash h) in
      match gasPriceFloorCache g1 !! currency with
      | Some gasPriceFloor => ((gasPriceFloor, None), g1)
      | None =>
        match GasPriceOracleAddress r with
        | None => ((fallbackGasPriceFloor, Some errNoGasPriceOracle), g1)
        | Some oracle =>
          match MakeStaticCall h oracle currency with
          | (gasPriceFloor, None) =>
            ((gasPriceFloor, None),
             {| gasPriceFloorCache :=
                  <[currency := gasPriceFloor]> (gasPriceFloorCache g1);
                cacheHeaderHash := cacheHeaderHash g1 |})
          | (gasPriceFloor, Some e) =>
            ((gasPriceFloor, Some (errStaticCall e)), g1)
          end
        end
      end
    end
  | _, _ => ((fallbackGasPriceFloor, Some errNilParameters), g)
  end.

(** The currency [GetGasPriceFloor] works with: the one given or, for
    nil, the registered gold token. *)
Definition resolveCurrency (r : AddressRegistry)
    (currencyAddress : option Address) : option Address :=
  match currencyAddress with
  | Some a => Some a
  | None => GoldTokenAddress r
  end.

(** A handler at header 7 whose oracle answers 100 for every currency,
    and a registry with gold token 1 and oracle 2. *)
Definition handlerAt7 : StaticEvmHandler :=
  {| CurrentHeaderHash := 7%N; MakeStaticCall := λ _ _, (Some 100, None) |}.

Definition registry12 : AddressRegistry :=
  {| GoldTokenAddress := Some 1%N; GasPriceOracleAddress := Some 2%N |}.

Definition freshCache : floorCache :=
  {| gasPriceFloorCache := ∅; cacheHeaderHash := 0%N |}.

(** * Properties *)

(** ** Comparisons *)

Lemma bigCmp_gtb (x y : Z) : (bigCmp x y >? 0) = (y <? x).
Proof.
  unfold bigCmp. rewrite (Z.ltb_antisym x y), Z.leb_compare.
  destruct (x ?= y); reflexivity.
Qed.

Lemma bigCmp_ltb (x y : Z) : (bigCmp x y <? 0) = (x <? y).
Proof.
  unfold bigCmp. rewrite (Z.ltb_compare x y).
  destruct (x ?= y); reflexivity.
Qed.

Lemma bigCmp_eqb (x y : Z) : (bigCmp x y =? 0) = (x =? y).
Proof.
  unfold bigCmp. rewrite (Z.eqb_compare x y).
  destruct (x ?= y); reflexivity.
Qed.

Ltac cmp_cases :=
  repeat match goal with
  | |- context [?x <? ?y] => destruct (Z.ltb_spec x y)
  | |- context [?x =? ?y] => destruct (Z.eqb_spec x y)
  | |- context [?x >? ?y] => rewrite (Z.gtb_ltb x y)
  end; simpl; try reflexivity; try lia.

Lemma Cmp_gtb (v y : Z * Z) :
  (Cmp v y >? 0) = (fst y <? fst v) || ((fst v =? fst y) && (snd y <? snd v)).
Proof.
  unfold Cmp. rewrite !bigCmp_eqb.
  destruct (Z.eqb_spec (fst v) (fst y)) as [E|E]; simpl.
  - destruct (Z.eqb_spec (snd v) (snd y)) as [E'|E']; simpl.
    + rewrite E, E'. cmp_cases.
    + rewrite bigCmp_gtb, E. cmp_cases.
  - rewrite bigCmp_gtb. cmp_cases.
Qed.

Lemma Cmp_ltb (v y : Z * Z) :
  (Cmp v y <? 0) = (fst v <? fst y) || ((fst v =? fst y) && (snd v <? snd y)).
Proof.
  unfold Cmp. rewrite !bigCmp_eqb.
  destruct (Z.eqb_spec (fst v) (fst y)) as [E|E]; simpl.
  - destruct (Z.eqb_spec (snd v) (snd y)) as [E'|E']; simpl.
    + rewrite E, E'. cmp_cases.
    + rewrite bigCmp_ltb, E. cmp_cases.
  - rewrite bigCmp_ltb. cmp_cases.
Qed.

Lemma Cmp_eqb (v y : Z * Z) :
  (Cmp v y =? 0) = (fst v =? fst y) && (snd v =? snd y).
Proof.
  unfold Cmp. rewrite !bigCmp_eqb.
  destruct (Z.eqb_spec (fst v) (fst y)) as [E|E]; simpl.
  - destruct (Z.eqb_spec (snd v) (snd y)) as [E'|E']; simpl.
    + reflexivity.
    + rewrite bigCmp_eqb. cmp_cases.
  - rewrite bigCmp_eqb. cmp_cases.
Qed.

Lemma Cmp_lt_iff (v y : Z * Z) : (Cmp v y <? 0) = true ↔ viewLt v y.
Proof.
  rewrite Cmp_ltb. unfold viewLt.
  rewrite orb_true_iff, andb_true_iff, !Z.ltb_lt, Z.eqb_eq. tauto.
Qed.

Lemma Cmp_eq_iff (v y : Z * Z) : (Cmp v y =? 0) = true ↔ v = y.
Proof.
  rewrite Cmp_eqb, andb_true_iff, !Z.eqb_eq.
  destruct v, y; simpl. split; [intros [-> ->]; reflexivity | intros [= -> ->]; auto].
Qed.

Lemma viewLt_not_gt (v y : Z * Z) : viewLt v y → (Cmp v y >? 0) = false.
Proof.
  unfold viewLt. rewrite Cmp_gtb. intros H.
  apply orb_false_iff. rewrite andb_false_iff, !Z.ltb_ge, Z.eqb_neq. lia.
Qed.

(** The head of [checkMessage] on a view with both fields present. *)
Lemma viewFields_newView (s r : Z) : viewFields (newView s r) = Some (s, r).
Proof. reflexivity. Qed.

(** ** The priority function *)

Lemma two64_val : two64 = 18446744073709551616.
Proof. reflexivity. Qed.

Lemma two63_val : two63 = 9223372036854775808.
Proof. reflexivity. Qed.

(** Without wrap-around the priority is the negated weighted round. *)
Lemma priorityOfRound_small (k r : Z) :
  0 ≤ r → 10 * r + 3 < two63 → 0 ≤ msgPriority k ≤ 3 →
  priorityOfRound k r = - (r * 10 + msgPriority k).
Proof.
  intros Hr Hb Hw. unfold priorityOfRound, neg64, int64, uint64, Uint64.
  rewrite two63_val in Hb. rewrite two64_val, two63_val.
  rewrite (Z.abs_eq r) by lia.
  rewrite (Z.mod_small r) by lia.
  rewrite (Z.mod_small (msgPriority k)) by lia.
  rewrite !(Z.mod_small (r * 10 + msgPriority k)) by lia.
  destruct (Z.ltb_spec (r * 10 + msgPriority k) 9223372036854775808); [|lia].
  destruct (Z.ltb_spec ((- (r * 10 + msgPriority k)) mod 18446744073709551616)
              9223372036854775808) as [H1|H1];
    Z.div_mod_to_equations; lia.
Qed.

Lemma toPriority_newView (k s r : Z) :
  k ≠ MsgRoundChange → toPriority k (newView s r) = Some (priorityOfRound k r).
Proof.
  intros Hk. unfold toPriority, newView.
  destruct (Z.eqb_spec k MsgRoundChange); [contradiction | reflexivity].
Qed.

Lemma weightedKind_facts (k : Z) :
  weightedKind k → k ≠ MsgRoundChange ∧ 0 ≤ msgPriority k ≤ 3 ∧ 1 ≤ msgPriority k.
Proof.
  intros [-> | [-> | ->]]; vm_compute; repeat split; congruence.
Qed.

Ltac weights :=
  change (msgPriority MsgPrepare) with 3 in *;
  change (msgPriority MsgCommit) with 2 in *;
  change (msgPriority MsgPreprepare) with 1 in *.

(** C2, as the code has it. For a round [r] whose weighted value stays
    below [2^63] (no wrap-around in [toPriority]): a fixed kind other than
    [RoundChange] gets a strictly smaller priority at round [r+1] than at
    round [r]; at a fixed round
    [priority(Prepare) < priority(Commit) < priority(Preprepare)];
    [priority(RoundChange)] is 0 whatever the view, and every other kind
    has a priority strictly below 0 at that round. *)
Theorem toPriority_monotonicity (s r : Z) :
  0 ≤ r → 10 * (r + 1) + 3 < two63 →
  (∀ k, weightedKind k →
     ∃ p p', toPriority k (newView s r) = Some p ∧
             toPriority k (newView s (r + 1)) = Some p' ∧ p' < p) ∧
  (∃ pp pc pr, toPriority MsgPreprepare (newView s r) = Some pp ∧
               toPriority MsgCommit (newView s r) = Some pc ∧
               toPriority MsgPrepare (newView s r) = Some pr ∧
               pr < pc ∧ pc < pp) ∧
  (∀ view, toPriority MsgRoundChange view = Some 0) ∧
  (∀ k, weightedKind k →
     ∃ p, toPriority k (newView s r) = Some p ∧ p < 0).
Proof.
  intros Hr Hb. repeat split.
  - intros k Hk. destruct (weightedKind_facts k Hk) as (Hne & Hw & _).
    exists (priorityOfRound k r), (priorityOfRound k (r + 1)).
    rewrite !toPriority_newView by assumption.
    rewrite !priorityOfRound_small by lia. repeat split; lia.
  - exists (priorityOfRound MsgPreprepare r), (priorityOfRound MsgCommit r),
      (priorityOfRound MsgPrepare r).
    rewrite !toPriority_newView by discriminate.
    rewrite !priorityOfRound_small by (weights; lia).
    repeat split; weights; lia.
  - intros k Hk. destruct (weightedKind_facts k Hk) as (Hne & Hw & Hw1).
    exists (priorityOfRound k r). rewrite toPriority_newView by assumption.
    rewrite priorityOfRound_small by lia. split; [reflexivity | lia].
Qed.

Lemma toPriority_monotonicity_witness :
  (∀ k, weightedKind k →
     ∃ p p', toPriority k (newView 6 0) = Some p ∧
             toPriority k (newView 6 (0 + 1)) = Some p' ∧ p' < p) ∧
  (∃ pp pc pr, toPriority MsgPreprepare (newView 6 0) = Some pp ∧
               toPriority MsgCommit (newView 6 0) = Some pc ∧
               toPriority MsgPrepare (newView 6 0) = Some pr ∧
               pr < pc ∧ pc < pp) ∧
  (∀ view, toPriority MsgRoundChange view = Some 0) ∧
  (∀ k, weightedKind k →
     ∃ p, toPriority k (newView 6 0) = Some p ∧ p < 0).
Proof.
  apply (toPriority_monotonicity 6 0); [lia | vm_compute; reflexivity].
Defined.

(** At round 0 the code gives [Preprepare] priority -1 and [Commit]
    priority -2: [priority(Preprepare) < priority(Commit)] fails there, and
    so does [priority(RoundChange) < priority(Preprepare)]. *)
Lemma toPriority_order_counterexample :
  toPriority MsgPreprepare (newView 6 0) = Some (-1) ∧
  toPriority MsgCommit (newView 6 0) = Some (-2) ∧
  toPriority MsgRoundChange (newView 6 0) = Some 0 ∧
  ¬ (-1 < -2) ∧ ¬ (0 < -1).
Proof. repeat split; lia. Qed.

(** ** The admission predicate *)

(** C4, as the code has it. For a [RoundChange] message with a well-formed
    view within the future-sequence horizon, [checkMessage] returns
    [Future] if the view's sequence is above the current sequence, [Old] if
    the sequence is at or below the current one and the round is below the
    desired round, and [Admit] in every other case. *)
Theorem checkMessage_RoundChange (c : core) (vs vr : Z) :
  vs ≤ currentSequence c + acceptMaxFutureSequence →
  checkMessage c MsgRoundChange (newView vs vr) = roundChangeRule c vs vr.
Proof.
  intros Hh. unfold checkMessage, roundChangeRule.
  rewrite viewFields_newView, !bigCmp_gtb, bigCmp_ltb.
  destruct (Z.ltb_spec (currentSequence c + acceptMaxFutureSequence) vs);
    [lia|].
  rewrite Z.eqb_refl, Z.gtb_ltb. reflexivity.
Qed.

Lemma checkMessage_RoundChange_witness :
  checkMessage coreAt52 MsgRoundChange (newView 5 3) = Old ∧
  checkMessage coreAt52 MsgRoundChange (newView 5 4) = Admit ∧
  checkMessage coreAt52 MsgRoundChange (newView 6 0) = Future.
Proof.
  split; [|split].
  - rewrite (checkMessage_RoundChange coreAt52 5 3); [reflexivity | unfold coreAt52, acceptMaxFutureSequence; simpl; lia].
  - rewrite (checkMessage_RoundChange coreAt52 5 4); [reflexivity | unfold coreAt52, acceptMaxFutureSequence; simpl; lia].
  - rewrite (checkMessage_RoundChange coreAt52 6 0); [reflexivity | unfold coreAt52, acceptMaxFutureSequence; simpl; lia].
Defined.

(** A [RoundChange] for the past sequence 4 with round 3, below the
    desired round 4: the specified rule admits it, the code returns
    [Old]. *)
Lemma checkMessage_RoundChange_counterexample :
  checkMessage coreAt52 MsgRoundChange (newView 4 3) = Old ∧
  roundChangeAsSpecified coreAt52 4 3 = Admit ∧
  4 ≤ currentSequence coreAt52 + acceptMaxFutureSequence ∧
  checkMessage coreAt52 MsgRoundChange (newView 4 3)
    ≠ roundChangeAsSpecified coreAt52 4 3.
Proof. repeat split; discriminate. Qed.

(** C5, as the code has it. For a message of a kind other than
    [RoundChange] whose well-formed view is strictly below the current
    view, [checkMessage] returns [Admit] exactly when the kind is [Commit]
    and the last-committed-subject lookup gives a subject of that very
    view, returns the error of the lookup exactly when the kind is
    [Commit] and the lookup fails, and returns [Old] in every other
    case. *)
Theorem checkMessage_below_current (c : core) (code vs vr : Z) :
  code ≠ MsgRoundChange →
  viewLt (vs, vr) (currentView c) →
  (checkMessage c code (newView vs vr) = Admit
     ↔ code = MsgCommit ∧ LastSubject c = inr (vs, vr)) ∧
  (∀ e, checkMessage c code (newView vs vr) = Some (errBackend e)
        ↔ code = MsgCommit ∧ LastSubject c = inl e) ∧
  (checkMessage c code (newView vs vr) ≠ Admit →
   (∀ e, checkMessage c code (newView vs vr) ≠ Some (errBackend e)) →
   checkMessage c code (newView vs vr) = Old).
Proof.
  intros Hrc Hlt. unfold checkMessage.
  rewrite viewFields_newView, bigCmp_gtb.
  assert (Hseq : vs ≤ currentSequence c)
    by (destruct Hlt as [Hx | [Hx _]]; simpl in Hx; lia).
  destruct (Z.ltb_spec (currentSequence c + acceptMaxFutureSequence) vs)
    as [Hfar|Hnear]; [unfold acceptMaxFutureSequence in *; lia|].
  destruct (Z.eqb_spec code MsgRoundChange) as [Hy|Hy]; [contradiction|].
  rewrite (viewLt_not_gt _ _ Hlt).
  rewrite (proj2 (Cmp_lt_iff _ _) Hlt).
  unfold Admit, Old.
  destruct (Z.eqb_spec code MsgCommit) as [Hc | Hc].
  - destruct (LastSubject c) as [e0 | lastView].
    + split; [split; [discriminate | intros [_ H]; discriminate]|].
      split; [|intros _ H; exfalso; apply (H e0); reflexivity].
      intros e. split; [intros [= ->]; auto | intros [_ [= ->]]; reflexivity].
    + destruct (Cmp (vs, vr) lastView =? 0) eqn:E.
      * apply Cmp_eq_iff in E. subst lastView.
        split; [split; auto|].
        split; [|intros H; congruence].
        intros e. split; [discriminate | intros [_ H]; discriminate].
      * assert (Hne : (vs, vr) ≠ lastView)
          by (intros Heq; apply Cmp_eq_iff in Heq; congruence).
        split; [split; [discriminate | intros [_ [= H]]; congruence]|].
        split; [|reflexivity].
        intros e. split; [discriminate | intros [_ H]; discriminate].
  - split; [split; [discriminate | tauto]|].
    split; [|reflexivity].
    intros e. split; [discriminate | tauto].
Qed.

Lemma checkMessage_below_current_witness :
  checkMessage coreAt10 MsgCommit (newView 9 3) = Admit ∧
  checkMessage coreAt10 MsgCommit (newView 9 2) = Old ∧
  checkMessage coreAt10 MsgPrepare (newView 9 3) = Old.
Proof.
  assert (Hlt : ∀ r, viewLt (9, r) (currentView coreAt10))
    by (intros r; left; unfold coreAt10; simpl; lia).
  split; [|split].
  - apply (checkMessage_below_current coreAt10 MsgCommit 9 3);
      [discriminate | apply Hlt | split; reflexivity].
  - apply (checkMessage_below_current coreAt10 MsgCommit 9 2);
      [discriminate | apply Hlt | discriminate | discriminate].
  - apply (checkMessage_below_current coreAt10 MsgPrepare 9 3);
      [discriminate | apply Hlt | discriminate | discriminate].
Defined.

(** When the last-committed-subject lookup fails, a [Commit] for (9, 3),
    strictly below the current view (10, 0), gets the error of the
    lookup: neither [Admit] nor [Old]. *)
Lemma checkMessage_below_current_counterexample :
  MsgCommit ≠ MsgRoundChange ∧
  viewLt (9, 3) (currentView coreAt10NoSubject) ∧
  checkMessage coreAt10NoSubject MsgCommit (newView 9 3)
    = Some (errBackend 7) ∧
  checkMessage coreAt10NoSubject MsgCommit (newView 9 3) ≠ Admit ∧
  checkMessage coreAt10NoSubject MsgCommit (newView 9 3) ≠ Old.
Proof.
  split; [discriminate|].
  split; [left; unfold coreAt10NoSubject; simpl; lia|].
  split; [reflexivity|]. split; discriminate.
Qed.

(** C6. On a well-formed view [checkMessage] returns [TooFar] exactly when
    the view's sequence exceeds the current sequence by more than
    [acceptMaxFutureSequence = 10], whatever the kind, the state and the
    last-committed subject; with current view (10, 0), a [Preprepare] at
    (21, 0) is [TooFar] and one at (20, 0) is [Future]. *)
Theorem checkMessage_TooFar :
  acceptMaxFutureSequence = 10 ∧
  (∀ (c : core) (code vs vr : Z),
     checkMessage c code (newView vs vr) = TooFar
       ↔ vs > currentSequence c + acceptMaxFutureSequence) ∧
  (∀ self desired st ls vals,
     let c := mkCore self 10 0 desired st ls vals in
     checkMessage c MsgPreprepare (newView 21 0) = TooFar ∧
     checkMessage c MsgPreprepare (newView 20 0) = Future).
Proof.
  split; [reflexivity|]. split.
  - intros c code vs vr. unfold checkMessage.
    rewrite viewFields_newView, bigCmp_gtb.
    destruct (Z.ltb_spec (currentSequence c + acceptMaxFutureSequence) vs).
    + unfold TooFar. split; [lia | reflexivity].
    + split; [|lia]. unfold TooFar.
      repeat match goal with
             | |- context [if ?b then _ else _] => destruct b
             | |- context [match ?x with inl _ => _ | inr _ => _ end] =>
               destruct x
             end; discriminate.
  - intros. split; reflexivity.
Qed.

(** C7, as the code has it. [checkMessage] returns [Admit], [Future],
    [Old], [Invalid] or [TooFar], or else, for a [Commit] whose view is
    below the current view, the error of a failed last-committed-subject
    lookup. *)
Theorem checkMessage_outcomes (c : core) (code : Z) (view : option View) :
  fiveOutcomes (checkMessage c code view) ∨
  (∃ e vs vr, LastSubject c = inl e ∧ code = MsgCommit ∧
              viewFields view = Some (vs, vr) ∧
              viewLt (vs, vr) (currentView c) ∧
              checkMessage c code view = Some (errBackend e)).
Proof.
  unfold checkMessage, fiveOutcomes, Admit, Future, Old, Invalid, TooFar.
  destruct (viewFields view) as [[vs vr]|] eqn:Ev; [|tauto].
  destruct (bigCmp vs _ >? 0); [tauto|].
  destruct (code =? MsgRoundChange).
  { destruct (bigCmp vs _ >? 0); [tauto|]. destruct (bigCmp vr _ <? 0); tauto. }
  destruct (Cmp (vs, vr) (currentView c) >? 0); [tauto|].
  destruct (Cmp (vs, vr) (currentView c) <? 0) eqn:Elt.
  - destruct (Z.eqb_spec code MsgCommit) as [Hc|Hc]; [|tauto].
    destruct (LastSubject c) as [e | lastView] eqn:Els.
    + right. exists e, vs, vr. apply Cmp_lt_iff in Elt. auto.
    + destruct (Cmp (vs, vr) lastView =? 0); tauto.
  - destruct (State_eqb _ _); [tauto|].
    destruct (State_eqb _ _); [|tauto].
    destruct (code >? MsgPreprepare); tauto.
Qed.

(** With a failing last-committed-subject lookup, a [Commit] below the
    current view gets the backend's error, which is none of the five
    outcomes. *)
Lemma checkMessage_outcomes_counterexample :
  let c := {| selfAddress := 0%N; currentSequence := 10; currentRound := 0;
              DesiredRound := 0; state := StateAcceptRequest;
              LastSubject := inl 7%nat; valSet := [] |} in
  checkMessage c MsgCommit (newView 9 3) = Some (errBackend 7) ∧
  ¬ fiveOutcomes (checkMessage c MsgCommit (newView 9 3)).
Proof.
  split; [reflexivity|].
  intros [H | [H | [H | [H | H]]]]; discriminate H.
Qed.

(** ** Sums over the backlog maps *)

Section map_sum.
Context {K : Type} `{Countable K} {A : Type} (f : A → Z).

Lemma mapSum_empty : mapSum f (∅ : gmap K A) = 0.
Proof. apply map_fold_empty. Qed.

Lemma mapSum_insert_fresh (m : gmap K A) (k : K) (x : A) :
  m !! k = None → mapSum f (<[k := x]> m) = f x + mapSum f m.
Proof.
  intros Hk. unfold mapSum. rewrite map_fold_insert_L; auto.
  intros. lia.
Qed.

Lemma mapSum_delete (m : gmap K A) (k : K) (x : A) :
  m !! k = Some x → mapSum f (delete k m) = mapSum f m - f x.
Proof.
  intros Hk. unfold mapSum.
  rewrite (map_fold_delete_L _ _ k x m); auto; [lia|].
  intros. lia.
Qed.

Lemma mapSum_insert (m : gmap K A) (k : K) (x : A) :
  mapSum f (<[k := x]> m)
  = mapSum f m - match m !! k with Some y => f y | None => 0 end + f x.
Proof.
  destruct (m !! k) as [y|] eqn:Hk.
  - rewrite <- (insert_delete_eq m k x).
    rewrite mapSum_insert_fresh by apply lookup_delete_eq.
    rewrite (mapSum_delete m k y Hk). lia.
  - rewrite mapSum_insert_fresh by assumption. lia.
Qed.

Lemma mapSum_delete_any (m : gmap K A) (k : K) :
  mapSum f (delete k m)
  = mapSum f m - match m !! k with Some y => f y | None => 0 end.
Proof.
  destruct (m !! k) as [y|] eqn:Hk.
  - apply mapSum_delete. assumption.
  - rewrite delete_id by assumption. lia.
Qed.

End map_sum.

Lemma sumCounts_update (m : gmap N Z) (a : Address) (d : Z) :
  sumCounts (<[a := countOf m a + d]> m) = sumCounts m + d.
Proof.
  unfold sumCounts. rewrite mapSum_insert. unfold countOf.
  destruct (m !! a); simpl; lia.
Qed.

Lemma Size_Push (m : Message) (p : Z) (q : prque.Prque Message) :
  prque.Size (prque.Push m p q) = prque.Size q + 1.
Proof.
  unfold prque.Size. induction q as [|[y py] q IH]; simpl; [reflexivity|].
  destruct (py <? p); simpl length; lia.
Qed.

(** ** Draining *)

Lemma drainLoop_counters (c : core) cb (q : prque.Prque Message)
    (counts : gmap N Z) (total : Z) :
  let '(cs, t, _) := drainLoop c cb q counts total in
  sumCounts cs = sumCounts counts - prque.Size q ∧ t = total - prque.Size q.
Proof.
  revert counts total. unfold prque.Size.
  induction q as [|[m p] q IH]; intros counts total; simpl.
  - split; lia.
  - specialize (IH (<[MsgAddress m := countOf counts (MsgAddress m) - 1]> counts)
                   (total - 1)).
    destruct (drainLoop c cb q _ _) as [[cs t] evs].
    destruct IH as [IH1 IH2]. rewrite IH1, IH2.
    replace (countOf counts (MsgAddress m) - 1)
      with (countOf counts (MsgAddress m) + -1) by lia.
    rewrite sumCounts_update. split; lia.
Qed.

Lemma drain_bySeq (c : core) (seq : Z) cb (b : backlog) :
  backlogBySeq (fst (drainBacklogForSeq c seq cb b))
  = delete seq (backlogBySeq b).
Proof.
  unfold drainBacklogForSeq. destruct (backlogBySeq b !! seq) eqn:E.
  - destruct (drainLoop c cb _ _ _) as [[cs t] evs]. reflexivity.
  - simpl. symmetry. apply delete_id. assumption.
Qed.

Lemma drain_consistent (c : core) (seq : Z) cb (b : backlog) :
  countersConsistent b →
  countersConsistent (fst (drainBacklogForSeq c seq cb b)).
Proof.
  intros [H1 H2]. unfold drainBacklogForSeq.
  destruct (backlogBySeq b !! seq) as [q|] eqn:E; [|split; assumption].
  pose proof (drainLoop_counters c cb q (backlogCountByVal b) (backlogTotal b)) as D.
  destruct (drainLoop c cb q _ _) as [[cs t] evs]. destruct D as [D1 D2].
  unfold countersConsistent, sumQueues. simpl.
  rewrite (mapSum_delete _ _ _ _ E). fold (sumQueues (backlogBySeq b)).
  split; lia.
Qed.

Lemma pruneLoop_consistent (c : core) (seqs : list Z) (b : backlog) :
  countersConsistent b → countersConsistent (pruneLoop c seqs b).
Proof.
  revert b. induction seqs as [|seq rest IH]; intros b Hb; simpl; [assumption|].
  destruct (_ || _); [assumption|]. apply IH, drain_consistent, Hb.
Qed.

Lemma processLoop_consistent (c : core) (seqs : list Z) (b : backlog) :
  countersConsistent b → countersConsistent (fst (processLoop c seqs b)).
Proof.
  revert b. induction seqs as [|seq rest IH]; intros b Hb; simpl; [assumption|].
  destruct (seq <? _).
  - apply IH, drain_consistent, Hb.
  - destruct (seq =? _); [|assumption].
    pose proof (drain_consistent c seq (Some (replayCallback c)) b Hb) as Hd.
    destruct (drainBacklogForSeq c seq _ b) as [b' evs]. simpl in Hd.
    specialize (IH b' Hd). destruct (processLoop c rest b') as [b'' evs'].
    exact IH.
Qed.

Lemma storeBacklog_consistent (c : core) (m : Message) (s : Address)
    (b b' : backlog) :
  countersConsistent b → storeBacklog c m s b = Returns b' →
  countersConsistent b'.
Proof.
  intros Hb. unfold storeBacklog.
  destruct (N.eqb _ _); [intros [= <-]; assumption|].
  destruct (storeSwitch m) as [v|]; [|intros [= <-]; assumption].
  destruct (_ >? _); [intros [= <-]; assumption|].
  destruct v as [[rnd [vseq|]]|]; try discriminate.
  destruct (toPriority _ _) as [prio|]; [|discriminate].
  set (b1 := mkBacklog _ _ _).
  assert (H1 : countersConsistent b1).
  { destruct Hb as [H1 H2]. unfold countersConsistent, b1, sumQueues. simpl.
    rewrite sumCounts_update, mapSum_insert, Size_Push.
    fold (sumQueues (backlogBySeq b)).
    destruct (backlogBySeq b !! Uint64 vseq); simpl; split; try lia.
    all: unfold prque.Size; simpl; lia. }
  destruct (_ >? _); intros [= <-]; [apply pruneLoop_consistent|]; assumption.
Qed.

(** ** Sequences of calls *)

(** An invariant kept by each returning call holds after every sequence of
    calls from the empty backlog. *)
Lemma runOps_invariant (P : backlog → Prop) :
  P emptyBacklog →
  (∀ o b b', P b → runOp o b = Returns b' → P b') →
  ∀ ops b, runOps ops emptyBacklog = Returns b → P b.
Proof.
  intros H0 Hstep ops. generalize emptyBacklog H0.
  induction ops as [|o rest IH]; intros b0 Hb0 b; simpl.
  - intros [= <-]. assumption.
  - destruct (runOp o b0) as [b1|] eqn:E; [|discriminate].
    apply IH. eapply Hstep; eassumption.
Qed.

Lemma runOp_consistent (o : backlogOp) (b b' : backlog) :
  countersConsistent b → runOp o b = Returns b' → countersConsistent b'.
Proof.
  destruct o as [c m s | c]; simpl; intros Hb.
  - apply storeBacklog_consistent. assumption.
  - intros [= <-]. apply processLoop_consistent. assumption.
Qed.

(** C9. After every sequence of [storeBacklog] and [processBacklog] calls
    from the empty backlog (pruning included), the global counter equals
    the sum of the per-sender counters, which equals the sum of the sizes
    of the per-sequence queues. *)
Theorem backlog_counters_consistent (ops : list backlogOp) (b : backlog) :
  runOps ops emptyBacklog = Returns b →
  backlogTotal b = sumCounts (backlogCountByVal b) ∧
  sumCounts (backlogCountByVal b) = sumQueues (backlogBySeq b).
Proof.
  apply (runOps_invariant countersConsistent).
  - split; reflexivity.
  - intros o b0 b1. apply runOp_consistent.
Qed.

Lemma backlog_counters_consistent_witness :
  ∃ b, runOps scenario3Stores emptyBacklog = Returns b ∧
       backlogTotal b = 4 ∧
       backlogTotal b = sumCounts (backlogCountByVal b) ∧
       sumCounts (backlogCountByVal b) = sumQueues (backlogBySeq b).
Proof.
  eexists. split; [vm_compute; reflexivity|]. split; [reflexivity|].
  apply (backlog_counters_consistent scenario3Stores). vm_compute; reflexivity.
Defined.

(** ** Replay *)

Lemma replayPost_msg (c : core) (x : Message * Z) (e : backlogEvent) :
  e ∈ replayPost c x → msg e = fst x.
Proof.
  unfold replayPost, replayCallback.
  destruct (GetByAddress _ _); [|intros H; inversion H].
  destruct (replaySwitch _); [|intros H; inversion H].
  destruct (checkMessage _ _ _); [intros H; inversion H|].
  intros H. apply list_elem_of_singleton in H. subst e. reflexivity.
Qed.

Lemma drainLoop_events_nil (c : core) (q : prque.Prque Message)
    (counts : gmap N Z) (total : Z) :
  snd (drainLoop c None q counts total) = [].
Proof.
  revert counts total. induction q as [|[m p] q IH]; intros; simpl; [reflexivity|].
  specialize (IH (<[MsgAddress m := countOf counts (MsgAddress m) - 1]> counts)
                 (total - 1)).
  destruct (drainLoop c None q _ _) as [[cs t] evs]. exact IH.
Qed.

Lemma drainLoop_events_replay (c : core) (q : prque.Prque Message)
    (counts : gmap N Z) (total : Z) :
  snd (drainLoop c (Some (replayCallback c)) q counts total)
  = concat (map (replayPost c) q).
Proof.
  revert counts total. induction q as [|[m p] q IH]; intros; simpl; [reflexivity|].
  specialize (IH (<[MsgAddress m := countOf counts (MsgAddress m) - 1]> counts)
                 (total - 1)).
  destruct (drainLoop c _ q _ _) as [[cs t] evs]. simpl in *.
  rewrite IH. reflexivity.
Qed.

Lemma drain_events_nil (c : core) (seq : Z) (b : backlog) :
  snd (drainBacklogForSeq c seq None b) = [].
Proof.
  unfold drainBacklogForSeq. destruct (backlogBySeq b !! seq) as [q|]; [|reflexivity].
  pose proof (drainLoop_events_nil c q (backlogCountByVal b) (backlogTotal b)) as D.
  destruct (drainLoop c None q _ _) as [[cs t] evs]. exact D.
Qed.

Lemma drain_events_replay (c : core) (seq : Z) (b : backlog) :
  snd (drainBacklogForSeq c seq (Some (replayCallback c)) b)
  = concat (map (replayPost c) (queueAt b seq)).
Proof.
  unfold drainBacklogForSeq, queueAt.
  destruct (backlogBySeq b !! seq) as [q|]; [|reflexivity].
  pose proof (drainLoop_events_replay c q (backlogCountByVal b) (backlogTotal b)) as D.
  destruct (drainLoop c _ q _ _) as [[cs t] evs]. exact D.
Qed.

(** Replay posts exactly what draining the queue of the current sequence
    posts. *)
Lemma processLoop_events (c : core) (seqs : list Z) (b : backlog) :
  snd (processLoop c seqs b) = []
  ∨ snd (processLoop c seqs b)
    = concat (map (replayPost c) (queueAt b (currentKey c))).
Proof.
  revert b. induction seqs as [|seq rest IH]; intros b; simpl; [left; reflexivity|].
  fold (currentKey c).
  destruct (Z.ltb_spec seq (currentKey c)) as [Hlt|Hge].
  - specialize (IH (fst (drainBacklogForSeq c seq None b))).
    unfold queueAt in IH. rewrite drain_bySeq, lookup_delete_ne in IH by lia.
    exact IH.
  - destruct (Z.eqb_spec seq (currentKey c)) as [->|Hne]; [|left; reflexivity].
    pose proof (drain_events_replay c (currentKey c) b) as De.
    pose proof (drain_bySeq c (currentKey c) (Some (replayCallback c)) b) as Dk.
    destruct (drainBacklogForSeq c _ _ b) as [b' evs]. simpl in De, Dk.
    specialize (IH b'). unfold queueAt in IH.
    rewrite Dk, lookup_delete_eq in IH. simpl in IH.
    destruct (processLoop c rest b') as [b'' evs']. simpl in *.
    right. destruct IH as [-> | ->]; rewrite app_nil_r; exact De.
Qed.

(** Replay only removes queues. *)
Lemma processLoop_keys (c : core) (seqs : list Z) (b : backlog) (k : Z) q :
  backlogBySeq (fst (processLoop c seqs b)) !! k = Some q →
  backlogBySeq b !! k = Some q.
Proof.
  revert b. induction seqs as [|seq rest IH]; intros b; simpl; [auto|].
  destruct (seq <? _).
  - intros Hk. apply IH in Hk. rewrite drain_bySeq in Hk.
    apply lookup_delete_Some in Hk. tauto.
  - destruct (seq =? _); [|auto].
    pose proof (drain_bySeq c seq (Some (replayCallback c)) b) as Dk.
    destruct (drainBacklogForSeq c _ _ b) as [b' evs]. simpl in Dk.
    specialize (IH b'). destruct (processLoop c rest b') as [b'' evs'].
    simpl in *. intros Hk. apply IH in Hk. rewrite Dk in Hk.
    apply lookup_delete_Some in Hk. tauto.
Qed.

(** Over an ascending list that covers the keys up to the current
    sequence, the loop leaves none of them. *)
Lemma processLoop_past (c : core) (seqs : list Z) (b : backlog) :
  StronglySorted Z.le seqs →
  (∀ k, is_Some (backlogBySeq b !! k) → k ≤ currentKey c → k ∈ seqs) →
  ∀ k, k ≤ currentKey c → backlogBySeq (fst (processLoop c seqs b)) !! k = None.
Proof.
  revert b. induction seqs as [|seq rest IH]; intros b Hs Hcov k Hk; simpl.
  - apply eq_None_not_Some. intros Hsome.
    specialize (Hcov k Hsome Hk). inversion Hcov.
  - fold (currentKey c). apply StronglySorted_inv in Hs as [Hs Hall].
    assert (Hstep : ∀ cb, ∀ k', k' ≤ currentKey c → seq ≤ currentKey c →
              backlogBySeq (fst (processLoop c rest
                (fst (drainBacklogForSeq c seq cb b)))) !! k' = None).
    { intros cb k' Hk' Hseq. apply IH; [assumption| |assumption].
      intros k0 Hsome Hk0. rewrite drain_bySeq in Hsome.
      destruct Hsome as [q Hq]. apply lookup_delete_Some in Hq as [Hne Hq].
      specialize (Hcov k0 (ex_intro _ q Hq) Hk0).
      apply elem_of_cons in Hcov as [->|Hin]; [contradiction | assumption]. }
    destruct (Z.ltb_spec seq (currentKey c)) as [Hlt|Hge].
    + apply Hstep; lia.
    + destruct (Z.eqb_spec seq (currentKey c)) as [Heq|Hne].
      * specialize (Hstep (Some (replayCallback c)) k Hk ltac:(lia)).
        destruct (drainBacklogForSeq c seq _ b) as [b' evs]. simpl in Hstep.
        destruct (processLoop c rest b') as [b'' evs']. exact Hstep.
      * simpl. apply eq_None_not_Some. intros Hsome.
        specialize (Hcov k Hsome Hk).
        apply elem_of_cons in Hcov as [->|Hin]; [lia|].
        rewrite Forall_forall in Hall. specialize (Hall k Hin). lia.
Qed.

Lemma getSortedBacklogSeqs_sorted (b : backlog) :
  StronglySorted Z.le (getSortedBacklogSeqs b).
Proof. apply StronglySorted_merge_sort; apply _. Qed.

Lemma getSortedBacklogSeqs_elem (b : backlog) (k : Z) :
  k ∈ getSortedBacklogSeqs b ↔ is_Some (backlogBySeq b !! k).
Proof.
  unfold getSortedBacklogSeqs. rewrite merge_sort_Permutation.
  rewrite elem_of_elements. apply elem_of_dom.
Qed.

Lemma currentKey_in_range (c : core) :
  0 ≤ currentSequence c < two64 → currentKey c = currentSequence c.
Proof.
  intros Hr. unfold currentKey, Uint64.
  rewrite Z.abs_eq by lia. apply Z.mod_small. assumption.
Qed.

(** C8. After [processBacklog], no queue keyed by a sequence below the
    current sequence (read as [uint64], like the keys) remains; every event
    posted carries a message of the queue of the current sequence, none of
    a past one; and a backlog whose queues are all for past sequences is
    left without any queue, with nothing posted. *)
Theorem processBacklog_prunes_past (c : core) (b : backlog) :
  (∀ s, s < currentKey c →
        backlogBySeq (fst (processBacklog c b)) !! s = None) ∧
  (∀ e, e ∈ snd (processBacklog c b) →
        ∃ p, (msg e, p) ∈ queueAt b (currentKey c)) ∧
  ((∀ k, is_Some (backlogBySeq b !! k) → k < currentKey c) →
   backlogBySeq (fst (processBacklog c b)) = ∅ ∧
   snd (processBacklog c b) = []).
Proof.
  assert (Hpast : ∀ s, s ≤ currentKey c →
            backlogBySeq (fst (processBacklog c b)) !! s = None).
  { apply processLoop_past; [apply getSortedBacklogSeqs_sorted|].
    intros k Hk _. apply getSortedBacklogSeqs_elem. assumption. }
  assert (Hev : ∀ e, e ∈ snd (processBacklog c b) →
            ∃ p, (msg e, p) ∈ queueAt b (currentKey c)).
  { intros e He. unfold processBacklog in He.
    destruct (processLoop_events c (getSortedBacklogSeqs b) b) as [E|E];
      rewrite E in He; [inversion He|].
    apply list_elem_of_In, in_concat in He as (l & Hl & He).
    apply in_map_iff in Hl as ([m p] & <- & Hx).
    apply list_elem_of_In, replayPost_msg in He. simpl in He.
    exists p. rewrite He. apply list_elem_of_In. assumption. }
  split; [intros s Hs; apply Hpast; lia|]. split; [exact Hev|].
  intros Hall. split.
  - apply map_eq. intros k. rewrite lookup_empty.
    destruct (backlogBySeq (fst (processBacklog c b)) !! k) as [q|] eqn:E;
      [|reflexivity].
    pose proof (processLoop_keys _ _ _ _ _ E) as E0.
    rewrite Hpast in E; [discriminate|].
    specialize (Hall k (ex_intro _ q E0)). lia.
  - destruct (snd (processBacklog c b)) as [|e evs] eqn:E; [reflexivity|].
    destruct (Hev e) as [p Hp]; [left|].
    unfold queueAt in Hp.
    destruct (backlogBySeq b !! currentKey c) as [q|] eqn:Eq;
      [|inversion Hp].
    specialize (Hall (currentKey c) (ex_intro _ q Eq)). lia.
Qed.

Lemma processBacklog_prunes_past_witness :
  dom (backlogBySeq scenario5Backlog) = {[3; 4]} ∧
  backlogTotal scenario5Backlog = 3 ∧
  backlogBySeq (fst (processBacklog coreAt5 scenario5Backlog)) = ∅ ∧
  snd (processBacklog coreAt5 scenario5Backlog) = [] ∧
  backlogTotal (fst (processBacklog coreAt5 scenario5Backlog)) = 0.
Proof.
  split; [vm_compute; reflexivity|]. split; [reflexivity|].
  split; [|split; [|vm_compute; reflexivity]].
  - apply (processBacklog_prunes_past coreAt5 scenario5Backlog).
    intros k [q Hk]. change (currentKey coreAt5) with 5.
    assert (Hin : k ∈ dom (backlogBySeq scenario5Backlog))
      by (apply elem_of_dom; eauto).
    assert (Hd : dom (backlogBySeq scenario5Backlog) = {[3; 4]})
      by (vm_compute; reflexivity).
    rewrite Hd in Hin. apply elem_of_union in Hin as [Hin|Hin];
      apply elem_of_singleton in Hin; lia.
  - apply (processBacklog_prunes_past coreAt5 scenario5Backlog).
    intros k [q Hk]. change (currentKey coreAt5) with 5.
    assert (Hin : k ∈ dom (backlogBySeq scenario5Backlog))
      by (apply elem_of_dom; eauto).
    assert (Hd : dom (backlogBySeq scenario5Backlog) = {[3; 4]})
      by (vm_compute; reflexivity).
    rewrite Hd in Hin. apply elem_of_union in Hin as [Hin|Hin];
      apply elem_of_singleton in Hin; lia.
Defined.

(** ** Order of replay *)

Lemma Forall_Push {A : Type} (P : A * Z → Prop) (x : A) (p : Z)
    (q : prque.Prque A) :
  P (x, p) → Forall P q → Forall P (prque.Push x p q).
Proof.
  intros Hx. induction 1 as [|[y py] q Hy Hq IH]; simpl.
  - constructor; [assumption | constructor].
  - destruct (py <? p); repeat constructor; assumption.
Qed.


Lemma storeSwitch_replaySwitch (m : Message) (v : View) :
  storeSwitch m = Some (Some v) → replaySwitch m = Some v.
Proof.
  unfold storeSwitch, replaySwitch.
  destruct (Code m =? MsgPreprepare); [intros ->; reflexivity|].
  destruct (_ || _); [intros ->; reflexivity|].
  destruct (Code m =? MsgRoundChange); [intros ->; reflexivity|discriminate].
Qed.


Lemma pruneLoop_keys (c : core) (seqs : list Z) (b : backlog) (k : Z) q :
  backlogBySeq (pruneLoop c seqs b) !! k = Some q →
  backlogBySeq b !! k = Some q.
Proof.
  revert b. induction seqs as [|seq rest IH]; intros b; simpl; [auto|].
  destruct (_ || _); [auto|].
  intros Hk. apply IH in Hk. rewrite drain_bySeq in Hk.
  apply lookup_delete_Some in Hk. tauto.
Qed.







(** ** The per-sender cap *)

(** C1, evaluated on the code. The cap [acceptMaxFutureMsgsFromOneValidator]
    is 1000, the test before the increment is [count > cap]: the 1001st
    message of one sender is still parked, so 1001 stores into the empty
    backlog leave a per-sender counter of 1001 and 1001 entries; only the
    1002nd message is dropped. *)
Theorem storeBacklog_sender_cap_overrun :
  acceptMaxFutureMsgsFromOneValidator = 1000 ∧
  runOps (floodOps 1001) emptyBacklog = Returns floodedBacklog ∧
  countOf (backlogCountByVal floodedBacklog) 1 = 1001 ∧
  prque.Size (queueAt floodedBacklog 6) = 1001 ∧
  backlogTotal floodedBacklog = 1001 ∧
  runOps (floodOps 1002) emptyBacklog = Returns floodedBacklog.
Proof.
  split; [reflexivity|].
  split; [vm_compute; reflexivity|].
  split; [vm_compute; reflexivity|].
  split; [vm_compute; reflexivity|].
  split; vm_compute; reflexivity.
Qed.

(** ** Nil dereference in storeBacklog *)

Lemma viewFields_Some (v : option View) (vs vr : Z) :
  viewFields v = Some (vs, vr) → v = newView vs vr.
Proof.
  destruct v as [[[r|] [s|]]|]; simpl; try discriminate.
  intros [= -> ->]. reflexivity.
Qed.

Lemma storeSwitch_kind (m : Message) :
  isKind (Code m) = true → storeSwitch m = Msg m.
Proof.
  unfold isKind, storeSwitch. intros Hk.
  destruct (Code m =? MsgPreprepare); [reflexivity|].
  destruct (Code m =? MsgPrepare); [reflexivity|].
  destruct (Code m =? MsgCommit); [reflexivity|].
  destruct (Code m =? MsgRoundChange); [reflexivity|discriminate].
Qed.

Lemma storeSwitch_other (m : Message) :
  isKind (Code m) = false → storeSwitch m = Some None.
Proof.
  unfold isKind, storeSwitch. intros Hk.
  destruct (Code m =? MsgPreprepare); [discriminate|].
  destruct (Code m =? MsgPrepare); [discriminate|].
  destruct (Code m =? MsgCommit); [discriminate|].
  destruct (Code m =? MsgRoundChange); [discriminate|reflexivity].
Qed.

(** C10, as the code has it. For a message of one of the four kinds whose
    payload decodes to a well-formed view or not at all, [storeBacklog]
    returns: early and without change (sender is self, decoding failed, or
    the sender's counter is above the cap), or after the push with the
    decoded view. For any other code, a message that passes the self check
    and the per-sender cap check reaches the per-sequence push with a nil
    view and dereferences it. *)
Theorem storeBacklog_nil_dereference (c : core) (m : Message) (s : Address)
    (b : backlog) :
  (isKind (Code m) = true → decodesWellFormed m →
   (storeBacklog c m s b = Returns b ∧
    (MsgAddress m = selfAddress c ∨ Msg m = None ∨
     countOf (backlogCountByVal b) (MsgAddress m)
       > acceptMaxFutureMsgsFromOneValidator)) ∨
   (∃ vs vr prio b',
      Msg m = Some (newView vs vr) ∧
      toPriority (Code m) (newView vs vr) = Some prio ∧
      storeBacklog c m s b = Returns b')) ∧
  (isKind (Code m) = false →
   MsgAddress m ≠ selfAddress c →
   countOf (backlogCountByVal b) (MsgAddress m)
     ≤ acceptMaxFutureMsgsFromOneValidator →
   storeBacklog c m s b = Panic).
Proof.
  split.
  - intros Hk Hwf. unfold storeBacklog.
    destruct (N.eqb_spec (MsgAddress m) (selfAddress c)) as [Hs|Hs];
      [left; auto|].
    rewrite (storeSwitch_kind m Hk).
    destruct (Msg m) as [v|] eqn:Ev; [|left; auto].
    destruct (Z.gtb_spec (countOf (backlogCountByVal b) (MsgAddress m))
                acceptMaxFutureMsgsFromOneValidator) as [Hc|Hc];
      [left; split; [reflexivity | right; right; lia]|].
    right. destruct (Hwf v Ev) as [[vs vr] Hv].
    apply viewFields_Some in Hv. subst v. unfold newView.
    assert (Hp : ∃ prio, toPriority (Code m) (newView vs vr) = Some prio).
    { unfold toPriority, newView. destruct (Code m =? MsgRoundChange); eauto. }
    destruct Hp as [prio Hp]. exists vs, vr, prio. unfold newView in Hp.
    rewrite Hp. destruct (_ >? _); eauto.
  - intros Hk Hs Hc. unfold storeBacklog.
    destruct (N.eqb_spec (MsgAddress m) (selfAddress c)); [contradiction|].
    rewrite (storeSwitch_other m Hk).
    destruct (Z.gtb_spec (countOf (backlogCountByVal b) (MsgAddress m))
                acceptMaxFutureMsgsFromOneValidator); [lia | reflexivity].
Qed.

Lemma storeBacklog_nil_dereference_witness :
  ((storeBacklog coreAt5 (messageAt 1 MsgCommit 6 0) 1%N emptyBacklog
      = Returns emptyBacklog ∧
    (MsgAddress (messageAt 1 MsgCommit 6 0) = selfAddress coreAt5 ∨
     Msg (messageAt 1 MsgCommit 6 0) = None ∨
     countOf (backlogCountByVal emptyBacklog)
       (MsgAddress (messageAt 1 MsgCommit 6 0))
       > acceptMaxFutureMsgsFromOneValidator)) ∨
   (∃ vs vr prio b',
      Msg (messageAt 1 MsgCommit 6 0) = Some (newView vs vr) ∧
      toPriority (Code (messageAt 1 MsgCommit 6 0)) (newView vs vr)
        = Some prio ∧
      storeBacklog coreAt5 (messageAt 1 MsgCommit 6 0) 1%N emptyBacklog
        = Returns b')) ∧
  storeBacklog coreAt5 strayMessage 1%N emptyBacklog = Panic.
Proof.
  split.
  - apply (storeBacklog_nil_dereference coreAt5 (messageAt 1 MsgCommit 6 0)
             1%N emptyBacklog); [reflexivity|].
    intros v [= <-]. eexists. reflexivity.
  - apply (storeBacklog_nil_dereference coreAt5 strayMessage 1%N emptyBacklog);
      [reflexivity | discriminate | vm_compute; discriminate].
Defined.

(** Once sender 1 has 1001 parked messages, a message of that sender with
    a code outside the four kinds passes the self check and is dropped by
    the cap check: [storeBacklog] returns, nothing is dereferenced. *)
Lemma storeBacklog_nil_dereference_counterexample :
  runOps (floodOps 1001) emptyBacklog = Returns floodedBacklog ∧
  isKind (Code strayMessage) = false ∧
  MsgAddress strayMessage ≠ selfAddress coreAt5 ∧
  storeBacklog coreAt5 strayMessage 1%N floodedBacklog
    = Returns floodedBacklog ∧
  storeBacklog coreAt5 strayMessage 1%N floodedBacklog ≠ Panic.
Proof.
  split; [vm_compute; reflexivity|].
  split; [reflexivity|].
  split; [discriminate|].
  assert (H : storeBacklog coreAt5 strayMessage 1%N floodedBacklog
              = Returns floodedBacklog) by (vm_compute; reflexivity).
  split; [exact H | rewrite H; discriminate].
Qed.

Lemma countOf_insert (m : gmap N Z) (k a : Address) (x : Z) :
  countOf (<[k := x]> m) a = if decide (k = a) then x else countOf m a.
Proof.
  unfold countOf. rewrite lookup_insert. destruct (decide (k = a)); reflexivity.
Qed.

Lemma drainLoop_counts_le (c : core) cb (q : prque.Prque Message)
    (counts : gmap N Z) (total : Z) (a : Address) :
  countOf (fst (fst (drainLoop c cb q counts total))) a ≤ countOf counts a.
Proof.
  revert counts total. induction q as [|[m p] q IH]; intros; simpl; [lia|].
  specialize (IH (<[MsgAddress m := countOf counts (MsgAddress m) - 1]> counts)
                 (total - 1)).
  destruct (drainLoop c cb q _ _) as [[cs t] evs]. simpl in *.
  rewrite countOf_insert in IH.
  destruct (decide (MsgAddress m = a)) as [<-|]; lia.
Qed.

Lemma drain_capped (c : core) (seq : Z) cb (b : backlog) :
  countersCapped b → countersCapped (fst (drainBacklogForSeq c seq cb b)).
Proof.
  intros Hb a. unfold drainBacklogForSeq.
  destruct (backlogBySeq b !! seq) as [q|]; [|apply Hb].
  pose proof (drainLoop_counts_le c cb q (backlogCountByVal b)
                (backlogTotal b) a) as D.
  destruct (drainLoop c cb q _ _) as [[cs t] evs]. simpl in *.
  specialize (Hb a). lia.
Qed.

Lemma pruneLoop_capped (c : core) (seqs : list Z) (b : backlog) :
  countersCapped b → countersCapped (pruneLoop c seqs b).
Proof.
  revert b. induction seqs as [|seq rest IH]; intros b Hb; simpl; [assumption|].
  destruct (_ || _); [assumption|]. apply IH, drain_capped, Hb.
Qed.

Lemma processLoop_capped (c : core) (seqs : list Z) (b : backlog) :
  countersCapped b → countersCapped (fst (processLoop c seqs b)).
Proof.
  revert b. induction seqs as [|seq rest IH]; intros b Hb; simpl; [assumption|].
  destruct (seq <? _).
  - apply IH, drain_capped, Hb.
  - destruct (seq =? _); [|assumption].
    pose proof (drain_capped c seq (Some (replayCallback c)) b Hb) as Hd.
    destruct (drainBacklogForSeq c seq _ b) as [b' evs]. simpl in Hd.
    specialize (IH b' Hd). destruct (processLoop c rest b') as [b'' evs'].
    exact IH.
Qed.

Lemma storeBacklog_capped (c : core) (m : Message) (b b' : backlog) :
  countersCapped b → storeBacklog c m (MsgAddress m) b = Returns b' →
  countersCapped b'.
Proof.
  intros Hb. unfold storeBacklog.
  destruct (N.eqb _ _); [intros [= <-]; assumption|].
  destruct (storeSwitch m) as [v|]; [|intros [= <-]; assumption].
  destruct (Z.gtb_spec (countOf (backlogCountByVal b) (MsgAddress m))
              acceptMaxFutureMsgsFromOneValidator) as [Hc|Hc];
    [intros [= <-]; assumption|].
  destruct v as [[rnd [vseq|]]|]; try discriminate.
  destruct (toPriority _ _) as [prio|]; [|discriminate].
  set (b1 := mkBacklog _ _ _).
  assert (H1 : countersCapped b1).
  { intros a. unfold b1. simpl. rewrite countOf_insert.
    destruct (decide (MsgAddress m = a)); [lia | apply Hb]. }
  destruct (_ >? _); intros [= <-]; [apply pruneLoop_capped|]; assumption.
Qed.

(** X16. The bound the code does keep on the per-sender counters: when
    every [storeBacklog] call is given the validator of the message's own
    sender, no counter exceeds 1001, one more than the cap. *)
Lemma sender_counter_bound (ops : list backlogOp) (b : backlog) :
  Forall senderMatches ops → runOps ops emptyBacklog = Returns b →
  ∀ a, countOf (backlogCountByVal b) a ≤ 1001.
Proof.
  intros Hok Hrun.
  assert (H0 : countersCapped emptyBacklog)
    by (intros a; vm_compute; discriminate).
  revert Hrun. generalize emptyBacklog H0.
  induction Hok as [|o rest Ho Hrest IH]; intros b0 Hb0; simpl.
  - intros [= <-]. exact Hb0.
  - destruct (runOp o b0) as [b1|] eqn:E; [|discriminate].
    apply IH. destruct o as [c m s | c]; simpl in *.
    + subst s. eapply storeBacklog_capped; eassumption.
    + injection E as <-. apply processLoop_capped. assumption.
Qed.

(** * Further properties *)

(** ** Admission: who is admitted, who is parked *)

Lemma State_eqb_eq (a b : State) : State_eqb a b = true ↔ a = b.
Proof. destruct a, b; simpl; split; intros H; congruence. Qed.

Lemma Cmp_gt_iff (v y : Z * Z) : (Cmp v y >? 0) = true ↔ viewGt v y.
Proof.
  rewrite Cmp_gtb. unfold viewGt, viewLt.
  rewrite orb_true_iff, andb_true_iff, !Z.ltb_lt, Z.eqb_eq. intuition lia.
Qed.

Lemma view_trichotomy (v y : Z * Z) : viewLt v y ∨ v = y ∨ viewGt v y.
Proof.
  destruct v as [a b], y as [a' b']. unfold viewGt, viewLt. simpl.
  destruct (Z.lt_total a a') as [H | [-> | H]]; [lia | | lia].
  destruct (Z.lt_total b b') as [H | [-> | H]]; [lia | auto | lia].
Qed.

(** X1. [checkMessage] answers [errInvalidMessage] exactly for a nil view
    and for a view with a nil sequence or a nil round. *)
Theorem checkMessage_Invalid_iff (c : core) (code : Z) (view : option View) :
  checkMessage c code view = Invalid ↔ viewFields view = None.
Proof.
  unfold checkMessage, Invalid.
  destruct (viewFields view) as [[vs vr]|]; [|tauto].
  split; [|discriminate].
  repeat match goal with
         | |- context [if ?b then _ else _] => destruct b
         | |- context [match ?x with inl _ => _ | inr _ => _ end] => destruct x
         end; discriminate.
Qed.

(** X2. Which messages are admitted: a [RoundChange] only at or below the
    current sequence with a round not below the desired round; any other
    kind only at the current view (in state [WaitingForNewRound] never, in
    state [AcceptRequest] only a [Preprepare]), or as a [Commit] below the
    current view for the view of the last committed subject. In
    particular no message for a sequence above the current one is
    admitted. *)
Theorem checkMessage_Admit_iff (c : core) (code vs vr : Z) :
  checkMessage c code (newView vs vr) = Admit ↔
  (code = MsgRoundChange ∧ vs ≤ currentSequence c ∧ DesiredRound c ≤ vr) ∨
  (code ≠ MsgRoundChange ∧ (vs, vr) = currentView c ∧
   state c ≠ StateWaitingForNewRound ∧
   (state c = StateAcceptRequest → code ≤ MsgPreprepare)) ∨
  (code = MsgCommit ∧ viewLt (vs, vr) (currentView c) ∧
   LastSubject c = inr (vs, vr)).
Proof.
  unfold checkMessage, Admit. rewrite viewFields_newView, !bigCmp_gtb, bigCmp_ltb.
  unfold acceptMaxFutureSequence.
  destruct (Z.ltb_spec (currentSequence c + 10) vs) as [Hfar|Hnear].
  { split; [discriminate|]. unfold viewLt, currentView. simpl.
    intros [H | [(_ & [= -> ->] & _) | (_ & H & _)]]; lia. }
  destruct (Z.eqb_spec code MsgRoundChange) as [->|Hrc].
  { destruct (Z.ltb_spec (currentSequence c) vs) as [Hs|Hs];
      [|destruct (Z.ltb_spec vr (DesiredRound c)) as [Hr|Hr]].
    - split; [discriminate|]. unfold viewLt, currentView. simpl.
      intros [H | [H | (H & _)]]; [lia | tauto | discriminate].
    - split; [discriminate|].
      intros [H | [H | (H & _)]]; [lia | tauto | discriminate].
    - split; [auto|reflexivity]. }
  destruct (Cmp (vs, vr) (currentView c) >? 0) eqn:Egt.
  { apply Cmp_gt_iff in Egt. split; [discriminate|].
    unfold viewGt, viewLt in *. simpl in *.
    intros [H | [(_ & [= -> ->] & _) | (_ & H & _)]]; [tauto | lia | lia]. }
  destruct (Cmp (vs, vr) (currentView c) <? 0) eqn:Elt.
  { apply Cmp_lt_iff in Elt.
    assert (Hne : (vs, vr) ≠ currentView c).
    { intros Heq. rewrite Heq in Elt. unfold viewLt in Elt. lia. }
    destruct (Z.eqb_spec code MsgCommit) as [->|Hc].
    - destruct (LastSubject c) as [e|lastView] eqn:Els.
      + split; [discriminate|].
        intros [H | [H | (_ & _ & H)]]; [destruct H; discriminate | tauto | discriminate].
      + destruct (Cmp (vs, vr) lastView =? 0) eqn:Eeq.
        * apply Cmp_eq_iff in Eeq. subst lastView. split; [auto 6|reflexivity].
        * split; [discriminate|].
          intros [H | [H | (_ & _ & [= H])]];
            [destruct H; discriminate | tauto |].
          symmetry in H. apply Cmp_eq_iff in H. congruence.
    - split; [discriminate|]. intros [H | [H | H]]; tauto. }
  assert (Heq : (vs, vr) = currentView c).
  { destruct (view_trichotomy (vs, vr) (currentView c)) as [H | [H | H]];
      [apply Cmp_lt_iff in H | assumption | apply Cmp_gt_iff in H]; congruence. }
  assert (Hnlt : ¬ viewLt (vs, vr) (currentView c)).
  { rewrite Heq. unfold viewLt. lia. }
  destruct (State_eqb (state c) StateWaitingForNewRound) eqn:Ew.
  { apply State_eqb_eq in Ew. split; [discriminate|].
    intros [H | [H | H]]; tauto. }
  assert (Hw : state c ≠ StateWaitingForNewRound)
    by (intros H; apply State_eqb_eq in H; congruence).
  destruct (State_eqb (state c) StateAcceptRequest) eqn:Ea.
  - rewrite Z.gtb_ltb. destruct (Z.ltb_spec MsgPreprepare code) as [Hp|Hp].
    + split; [discriminate|]. apply State_eqb_eq in Ea.
      intros [H | [(_ & _ & _ & H) | H]]; [tauto | specialize (H Ea); lia | tauto].
    + split; [|reflexivity]. intros _. right. left. auto.
  - split; [|reflexivity]. intros _. right. left.
    repeat split; auto. intros H. apply State_eqb_eq in H. congruence.
Qed.

(** X3. Which messages are parked: [checkMessage] answers
    [errFutureMessage] exactly for a view within the horizon of ten
    sequences that is, for a [RoundChange], on a sequence above the
    current one and, for any other kind, above the current view, or at
    the current view while the core waits for a new round or (a kind
    other than [Preprepare]) for a proposal. *)
Theorem checkMessage_Future_iff (c : core) (code vs vr : Z) :
  checkMessage c code (newView vs vr) = Future ↔
  vs ≤ currentSequence c + acceptMaxFutureSequence ∧
  ((code = MsgRoundChange ∧ currentSequence c < vs) ∨
   (code ≠ MsgRoundChange ∧
    (viewGt (vs, vr) (currentView c) ∨
     ((vs, vr) = currentView c ∧
      (state c = StateWaitingForNewRound ∨
       (state c = StateAcceptRequest ∧ MsgPreprepare < code)))))).
Proof.
  unfold checkMessage, Future. rewrite viewFields_newView, !bigCmp_gtb, bigCmp_ltb.
  destruct (Z.ltb_spec (currentSequence c + acceptMaxFutureSequence) vs)
    as [Hfar|Hnear].
  { split; [discriminate | lia]. }
  destruct (Z.eqb_spec code MsgRoundChange) as [->|Hrc].
  { destruct (Z.ltb_spec (currentSequence c) vs) as [Hs|Hs];
      [|destruct (Z.ltb_spec vr (DesiredRound c)) as [Hr|Hr]].
    - split; auto.
    - split; [discriminate|]. intros (_ & [H | H]); [lia | tauto].
    - split; [discriminate|]. intros (_ & [H | H]); [lia | tauto]. }
  destruct (Cmp (vs, vr) (currentView c) >? 0) eqn:Egt.
  { apply Cmp_gt_iff in Egt. split; auto. }
  assert (Hngt : ¬ viewGt (vs, vr) (currentView c))
    by (intros H; apply Cmp_gt_iff in H; congruence).
  destruct (Cmp (vs, vr) (currentView c) <? 0) eqn:Elt.
  { apply Cmp_lt_iff in Elt.
    assert (Hne : (vs, vr) ≠ currentView c).
    { intros Heq. rewrite Heq in Elt. unfold viewLt in Elt. lia. }
    assert (R : ¬ (vs ≤ currentSequence c + acceptMaxFutureSequence ∧
              (code = MsgRoundChange ∧ currentSequence c < vs
               ∨ code ≠ MsgRoundChange ∧
                 (viewGt (vs, vr) (currentView c)
                  ∨ (vs, vr) = currentView c ∧
                    (state c = StateWaitingForNewRound
                     ∨ state c = StateAcceptRequest ∧ MsgPreprepare < code)))))
      by tauto.
    destruct (code =? MsgCommit); [destruct (LastSubject c) as [e|lastView];
      [|destruct (Cmp (vs, vr) lastView =? 0)]|]; split; try discriminate; tauto. }
  assert (Heq : (vs, vr) = currentView c).
  { destruct (view_trichotomy (vs, vr) (currentView c)) as [H | [H | H]];
      [apply Cmp_lt_iff in H | assumption | apply Cmp_gt_iff in H]; congruence. }
  destruct (State_eqb (state c) StateWaitingForNewRound) eqn:Ew.
  { apply State_eqb_eq in Ew. split; auto 7. }
  assert (Hw : state c ≠ StateWaitingForNewRound)
    by (intros H; apply State_eqb_eq in H; congruence).
  destruct (State_eqb (state c) StateAcceptRequest) eqn:Ea.
  - apply State_eqb_eq in Ea. rewrite Z.gtb_ltb.
    destruct (Z.ltb_spec MsgPreprepare code) as [Hp|Hp].
    + split; auto 8.
    + split; [discriminate|]. intros (_ & [H | (_ & [H | (_ & [H | H])])]);
        [tauto | tauto | tauto | lia].
  - assert (Ha : state c ≠ StateAcceptRequest)
      by (intros H; apply State_eqb_eq in H; congruence).
    split; [discriminate|]. intros (_ & [H | (_ & [H | (_ & [H | H])])]); tauto.
Qed.

(** ** The priority function across rounds *)

Lemma msgPriority_range (k : Z) : 0 ≤ msgPriority k ≤ 3.
Proof.
  unfold msgPriority.
  destruct (k =? MsgPreprepare); [lia|].
  destruct (k =? MsgCommit); [lia|].
  destruct (k =? MsgPrepare); lia.
Qed.

(** X4. Without wrap-around, a message of a later round has a strictly
    smaller priority than any message of an earlier round, whatever the
    two kinds (other than [RoundChange]): the factor 10 keeps the rounds
    apart, so a queue pops all of round [r] before anything of a later
    round. *)
Theorem toPriority_round_dominates (k k' s s' r r' : Z) :
  k ≠ MsgRoundChange → k' ≠ MsgRoundChange →
  0 ≤ r → r < r' → 10 * r' + 3 < two63 →
  ∃ p p', toPriority k (newView s r) = Some p ∧
          toPriority k' (newView s' r') = Some p' ∧ p' < p.
Proof.
  intros Hk Hk' Hr Hlt Hb.
  exists (priorityOfRound k r), (priorityOfRound k' r').
  rewrite !toPriority_newView by assumption.
  pose proof (msgPriority_range k). pose proof (msgPriority_range k').
  rewrite !priorityOfRound_small by lia. repeat split; lia.
Qed.

Lemma toPriority_round_dominates_witness :
  ∃ p p', toPriority MsgPrepare (newView 6 0) = Some p ∧
          toPriority MsgPreprepare (newView 6 1) = Some p' ∧ p' < p.
Proof.
  apply (toPriority_round_dominates MsgPrepare MsgPreprepare 6 6 0 1);
    [discriminate | discriminate | lia | lia | vm_compute; reflexivity].
Defined.

(** ** Invariants of the backlog *)

(** What a returning [storeBacklog] has done: nothing, or the push,
    followed by the pruning loop when the total exceeds the global cap. *)
Lemma storeBacklog_cases (c : core) (m : Message) (s : Address)
    (b b' : backlog) :
  storeBacklog c m s b = Returns b' →
  b' = b ∨
  ∃ v vseq prio,
    MsgAddress m ≠ selfAddress c ∧
    storeSwitch m = Some (Some v) ∧ Sequence v = Some vseq ∧
    toPriority (Code m) (Some v) = Some prio ∧
    countOf (backlogCountByVal b) (MsgAddress m)
      ≤ acceptMaxFutureMsgsFromOneValidator ∧
    ((backlogTotal b + 1 ≤ acceptMaxFutureMessages ∧
      b' = pushedBacklog m s prio (Uint64 vseq) b) ∨
     (backlogTotal b + 1 > acceptMaxFutureMessages ∧
      b' = pruneLoop c
             (rev (tail (getSortedBacklogSeqs
                           (pushedBacklog m s prio (Uint64 vseq) b))))
             (pushedBacklog m s prio (Uint64 vseq) b))).
Proof.
  unfold storeBacklog.
  destruct (N.eqb_spec (MsgAddress m) (selfAddress c)) as [Hs|Hs];
    [intros [= <-]; auto|].
  destruct (storeSwitch m) as [v|] eqn:Esw; [|intros [= <-]; auto].
  destruct (Z.gtb_spec (countOf (backlogCountByVal b) (MsgAddress m))
              acceptMaxFutureMsgsFromOneValidator) as [Hc|Hc];
    [intros [= <-]; auto|].
  destruct v as [[rnd [vseq|]]|]; try discriminate.
  destruct (toPriority _ _) as [prio|] eqn:Eprio; [|discriminate].
  fold (pushedBacklog m s prio (Uint64 vseq) b).
  intros Hret. right. exists (mkView rnd (Some vseq)), vseq, prio.
  repeat (split; [first [assumption | reflexivity]|]).
  revert Hret.
  change (backlogTotal (pushedBacklog m s prio (Uint64 vseq) b))
    with (backlogTotal b + 1).
  destruct (Z.gtb_spec (backlogTotal b + 1) acceptMaxFutureMessages) as [Ht|Ht];
    intros [= <-]; [right | left]; split; (lia || reflexivity).
Qed.

Lemma queuesAll_shrink (P : Z → prque.Prque Message → Prop) (b b' : backlog) :
  (∀ k q, backlogBySeq b' !! k = Some q → backlogBySeq b !! k = Some q) →
  queuesAll P b → queuesAll P b'.
Proof. intros Hsub Hb k q Hk. apply Hb, Hsub, Hk. Qed.

(** A property of the queues that every push establishes for the queue
    pushed to is kept by every sequence of calls. *)
Lemma runOps_queuesAll (P : Z → prque.Prque Message → Prop)
    (ok : backlogOp → Prop) :
  (∀ c m s v vseq prio q0,
     ok (opStore c m s) → MsgAddress m ≠ selfAddress c →
     storeSwitch m = Some (Some v) → Sequence v = Some vseq →
     toPriority (Code m) (Some v) = Some prio →
     (q0 = [] ∨ P (Uint64 vseq) q0) →
     P (Uint64 vseq) (prque.Push m prio q0)) →
  ∀ ops b, Forall ok ops → runOps ops emptyBacklog = Returns b → queuesAll P b.
Proof.
  intros Hpush ops b Hok.
  assert (H0 : queuesAll P emptyBacklog).
  { intros k q Hk. simpl in Hk. rewrite lookup_empty in Hk. discriminate. }
  revert H0. generalize emptyBacklog.
  induction Hok as [|o rest Ho Hrest IH]; intros b0 Hb0; simpl.
  - intros [= <-]. exact Hb0.
  - destruct (runOp o b0) as [b1|] eqn:E; [|discriminate].
    apply IH. destruct o as [c m s | c]; simpl in E.
    + apply storeBacklog_cases in E
        as [-> | (v & vseq & prio & Hs & Hsw & Hseq & Hprio & Hc & Hb1)];
        [assumption|].
      assert (Hp : queuesAll P (pushedBacklog m s prio (Uint64 vseq) b0)).
      { intros k q. unfold pushedBacklog. simpl. rewrite lookup_insert.
        destruct (decide (Uint64 vseq = k)) as [<-|Hne]; [|apply Hb0].
        intros [= <-]. eapply Hpush; try eassumption.
        destruct (backlogBySeq b0 !! Uint64 vseq) as [q0|] eqn:Eq; simpl;
          [right; apply (Hb0 _ _ Eq) | left; reflexivity]. }
      destruct Hb1 as [[_ ->] | [_ ->]]; [assumption|].
      eapply queuesAll_shrink; [|exact Hp]. apply pruneLoop_keys.
    + injection E as <-. eapply queuesAll_shrink; [|exact Hb0].
      apply processLoop_keys.
Qed.

Lemma Push_elem {A : Type} (x : A) (p : Z) (q : prque.Prque A) (y : A * Z) :
  y ∈ prque.Push x p q ↔ y = (x, p) ∨ y ∈ q.
Proof.
  induction q as [|[z pz] q IH]; simpl.
  - rewrite list_elem_of_singleton, elem_of_nil. tauto.
  - destruct (pz <? p); rewrite !elem_of_cons; [tauto|].
    rewrite IH. tauto.
Qed.

Lemma Forall_Push_or {A : Type} (P : A * Z → Prop) (x : A) (p : Z)
    (q : prque.Prque A) :
  P (x, p) → (q = [] ∨ Forall P q) → Forall P (prque.Push x p q).
Proof.
  intros Hx [-> | Hq]; [repeat constructor; assumption|].
  apply Forall_Push; assumption.
Qed.

(** X5. Self-exclusion: [storeBacklog] leaves the backlog as it is when
    the message comes from the core's own address, and after any sequence
    of calls made by one core no queue holds a message of that core. *)
Theorem backlog_never_holds_self (self : Address) :
  (∀ c m s b, selfAddress c = self → MsgAddress m = self →
              storeBacklog c m s b = Returns b) ∧
  (∀ ops b, Forall (calledBy self) ops →
            runOps ops emptyBacklog = Returns b →
            ∀ k q x, backlogBySeq b !! k = Some q → x ∈ q →
                     MsgAddress (fst x) ≠ self).
Proof.
  split.
  - intros c m s b Hc Hm. unfold storeBacklog.
    rewrite Hc, Hm, N.eqb_refl. reflexivity.
  - intros ops b Hok Hrun k q x Hk Hx.
    assert (H : queuesAll (λ _ q, Forall (λ x, MsgAddress (fst x) ≠ self) q) b).
    { revert Hrun. apply (runOps_queuesAll _ (calledBy self)); [|assumption].
      intros c m s v vseq prio q0 Hc Hs _ _ _ Hq0. simpl in Hc.
      apply Forall_Push_or; [simpl; congruence | assumption]. }
    specialize (H k q Hk). rewrite Forall_forall in H. apply H. assumption.
Qed.

(** X6. Queue partition: after any sequence of calls, every message in
    the queue keyed [k] decodes to a view whose sequence, read as
    [uint64], is [k]. *)
Theorem backlog_partitioned_by_sequence (ops : list backlogOp) (b : backlog) :
  runOps ops emptyBacklog = Returns b →
  ∀ k q x, backlogBySeq b !! k = Some q → x ∈ q → filedUnder k x.
Proof.
  intros Hrun k q x Hk Hx.
  assert (H : queuesAll (λ k q, Forall (filedUnder k) q) b).
  { revert Hrun. apply (runOps_queuesAll _ (λ _, True)).
    - intros c m s v vseq prio q0 _ _ Hsw Hseq _ Hq0.
      apply Forall_Push_or; [|assumption].
      exists v, vseq. simpl. auto using storeSwitch_replaySwitch.
    - apply Forall_forall. auto. }
  specialize (H k q Hk). rewrite Forall_forall in H. apply H. assumption.
Qed.

Lemma backlog_never_holds_self_witness :
  storeBacklog coreAt5 (messageAt 99 MsgPrepare 6 0) 99%N scenario3Backlog
    = Returns scenario3Backlog ∧
  ∀ k q x, backlogBySeq scenario3Backlog !! k = Some q → x ∈ q →
           MsgAddress (fst x) ≠ 99%N.
Proof.
  destruct (backlog_never_holds_self 99%N) as [H1 H2]. split.
  - apply H1; reflexivity.
  - apply (H2 scenario3Stores); [|vm_compute; reflexivity].
    repeat constructor.
Defined.

Lemma backlog_partitioned_by_sequence_witness :
  filedUnder 6 (messageAt 4 MsgRoundChange 6 0, 0).
Proof.
  apply (backlog_partitioned_by_sequence scenario3Stores scenario3Backlog
           ltac:(vm_compute; reflexivity) 6 (queueAt scenario3Backlog 6)).
  - vm_compute. reflexivity.
  - apply list_elem_of_In. vm_compute. left. reflexivity.
Defined.

Lemma mapSum_lower {K : Type} `{Countable K} {A : Type} (f : A → Z)
    (m : gmap K A) :
  (∀ k x, m !! k = Some x → 1 ≤ f x) → Z.of_nat (size m) ≤ mapSum f m.
Proof.
  induction m as [|k x m Hk IH] using map_ind; intros Hf.
  - rewrite map_size_empty, mapSum_empty. lia.
  - rewrite map_size_insert_None, mapSum_insert_fresh by assumption.
    assert (1 ≤ f x) by (apply (Hf k); apply lookup_insert_eq).
    assert (Z.of_nat (size m) ≤ mapSum f m).
    { apply IH. intros k' x' Hk'. apply (Hf k').
      rewrite lookup_insert_ne; [assumption|]. intros ->. congruence. }
    lia.
Qed.

Lemma Push_nonempty {A : Type} (x : A) (p : Z) (q : prque.Prque A) :
  prque.Push x p q ≠ [].
Proof. destruct q as [|[y py] q]; simpl; [|destruct (py <? p)]; discriminate. Qed.

Lemma runOps_consistent (ops : list backlogOp) (b : backlog) :
  runOps ops emptyBacklog = Returns b → countersConsistent b.
Proof.
  apply (runOps_invariant countersConsistent).
  - split; reflexivity.
  - intros o b0 b1. apply runOp_consistent.
Qed.

(** X7. After any sequence of calls no queue of the backlog is empty (a
    drained queue is deleted, a queue is created by a push), the global
    counter is at least the number of queues, and it is 0 exactly when
    the backlog has no queue. *)
Theorem backlog_queues_nonempty (ops : list backlogOp) (b : backlog) :
  runOps ops emptyBacklog = Returns b →
  (∀ k q, backlogBySeq b !! k = Some q → q ≠ []) ∧
  Z.of_nat (queueCount b) ≤ backlogTotal b ∧
  (backlogTotal b = 0 ↔ backlogBySeq b = ∅).
Proof.
  intros Hrun.
  assert (Hne : queuesAll (λ _ q, q ≠ []) b).
  { revert Hrun. apply (runOps_queuesAll _ (λ _, True)).
    - intros. apply Push_nonempty.
    - apply Forall_forall. auto. }
  destruct (runOps_consistent _ _ Hrun) as [H1 H2].
  assert (Hsz : Z.of_nat (queueCount b) ≤ backlogTotal b).
  { rewrite H1, H2. apply mapSum_lower. intros k q Hk.
    specialize (Hne k q Hk). unfold prque.Size.
    destruct q; [contradiction | simpl length; lia]. }
  split; [exact Hne|]. split; [exact Hsz|]. split.
  - intros H0. apply map_size_empty_iff. unfold queueCount in Hsz. lia.
  - intros He. rewrite H1, H2, He. apply mapSum_empty.
Qed.

Lemma backlog_queues_nonempty_witness :
  (∀ k q, backlogBySeq scenario3Backlog !! k = Some q → q ≠ []) ∧
  Z.of_nat (queueCount scenario3Backlog) ≤ backlogTotal scenario3Backlog ∧
  (backlogTotal scenario3Backlog = 0 ↔ backlogBySeq scenario3Backlog = ∅).
Proof.
  apply (backlog_queues_nonempty scenario3Stores). vm_compute; reflexivity.
Defined.

(** ** Per-sender counters and parked messages *)

Lemma parkedFrom_cons (a : Address) (x : Message * Z)
    (q : prque.Prque Message) :
  parkedFrom a (x :: q)
  = parkedFrom a q + (if decide (MsgAddress (fst x) = a) then 1 else 0).
Proof.
  unfold parkedFrom, prque.Prque. rewrite filter_cons.
  destruct (decide (MsgAddress (fst x) = a)); simpl length; lia.
Qed.

Lemma parkedFrom_Push (a : Address) (m : Message) (p : Z)
    (q : prque.Prque Message) :
  parkedFrom a (prque.Push m p q)
  = parkedFrom a q + (if decide (MsgAddress m = a) then 1 else 0).
Proof.
  induction q as [|[y py] q IH]; cbn [prque.Push].
  - rewrite parkedFrom_cons. reflexivity.
  - destruct (py <? p).
    + rewrite (parkedFrom_cons a (m, p)). reflexivity.
    + rewrite !(parkedFrom_cons a (y, py)), IH. lia.
Qed.

Lemma drainLoop_counts_exact (c : core) cb (q : prque.Prque Message)
    (counts : gmap N Z) (total : Z) (a : Address) :
  countOf (fst (fst (drainLoop c cb q counts total))) a
  = countOf counts a - parkedFrom a q.
Proof.
  revert counts total.
  induction q as [|[m p] q IH]; intros; cbn [drainLoop].
  - unfold parkedFrom, prque.Prque. rewrite filter_nil. simpl. lia.
  - specialize (IH (<[MsgAddress m := countOf counts (MsgAddress m) - 1]> counts)
                   (total - 1)).
    destruct (drainLoop c cb q _ _) as [[cs t] evs]. cbn [fst] in *.
    rewrite IH, countOf_insert, parkedFrom_cons. cbn [fst].
    destruct (decide (MsgAddress m = a)) as [<-|]; lia.
Qed.

Lemma drain_countsExact (c : core) (seq : Z) cb (b : backlog) :
  countsExact b → countsExact (fst (drainBacklogForSeq c seq cb b)).
Proof.
  intros Hb a. unfold drainBacklogForSeq.
  destruct (backlogBySeq b !! seq) as [q|] eqn:E; [|apply Hb].
  pose proof (drainLoop_counts_exact c cb q (backlogCountByVal b)
                (backlogTotal b) a) as D.
  destruct (drainLoop c cb q _ _) as [[cs t] evs]. simpl in *.
  rewrite D, (mapSum_delete _ _ _ _ E), Hb. reflexivity.
Qed.

Lemma pruneLoop_countsExact (c : core) (seqs : list Z) (b : backlog) :
  countsExact b → countsExact (pruneLoop c seqs b).
Proof.
  revert b. induction seqs as [|seq rest IH]; intros b Hb; simpl; [assumption|].
  destruct (_ || _); [assumption|]. apply IH, drain_countsExact, Hb.
Qed.

Lemma processLoop_countsExact (c : core) (seqs : list Z) (b : backlog) :
  countsExact b → countsExact (fst (processLoop c seqs b)).
Proof.
  revert b. induction seqs as [|seq rest IH]; intros b Hb; simpl; [assumption|].
  destruct (seq <? _).
  - apply IH, drain_countsExact, Hb.
  - destruct (seq =? _); [|assumption].
    pose proof (drain_countsExact c seq (Some (replayCallback c)) b Hb) as Hd.
    destruct (drainBacklogForSeq c seq _ b) as [b' evs]. simpl in Hd.
    specialize (IH b' Hd). destruct (processLoop c rest b') as [b'' evs'].
    exact IH.
Qed.

Lemma pushed_countsExact (m : Message) (prio key : Z) (b : backlog) :
  countsExact b → countsExact (pushedBacklog m (MsgAddress m) prio key b).
Proof.
  intros Hb a. unfold pushedBacklog. simpl.
  rewrite countOf_insert, mapSum_insert, parkedFrom_Push, !Hb.
  assert (Hq : parkedFrom a (default prque.New (backlogBySeq b !! key))
               = match backlogBySeq b !! key with
                 | Some y => parkedFrom a y
                 | None => 0
                 end)
    by (destruct (backlogBySeq b !! key); reflexivity).
  rewrite Hq. destruct (backlogBySeq b !! key);
    destruct (decide (MsgAddress m = a)) as [->|]; lia.
Qed.

Lemma runOps_invariant_on (ok : backlogOp → Prop) (P : backlog → Prop) :
  P emptyBacklog →
  (∀ o b b', ok o → P b → runOp o b = Returns b' → P b') →
  ∀ ops b, Forall ok ops → runOps ops emptyBacklog = Returns b → P b.
Proof.
  intros H0 Hstep ops b Hok. revert H0. generalize emptyBacklog.
  induction Hok as [|o rest Ho Hrest IH]; intros b0 Hb0; simpl.
  - intros [= <-]. assumption.
  - destruct (runOp o b0) as [b1|] eqn:E; [|discriminate].
    apply IH. eapply Hstep; eassumption.
Qed.

Lemma mapSum_nonneg {K : Type} `{Countable K} {A : Type} (f : A → Z)
    (m : gmap K A) :
  (∀ x, 0 ≤ f x) → 0 ≤ mapSum f m.
Proof.
  intros Hf. induction m as [|k x m Hk IH] using map_ind.
  - rewrite mapSum_empty. lia.
  - rewrite mapSum_insert_fresh by assumption. specialize (Hf x). lia.
Qed.

Lemma runOp_countsExact (o : backlogOp) (b b' : backlog) :
  senderMatches o → countsExact b → runOp o b = Returns b' → countsExact b'.
Proof.
  destruct o as [c m s | c]; simpl; intros Hs Hb E.
  - subst s. apply storeBacklog_cases in E
      as [-> | (v & vseq & prio & _ & _ & _ & _ & _ & Hb1)]; [assumption|].
    destruct Hb1 as [[_ ->] | [_ ->]];
      [|apply pruneLoop_countsExact]; apply pushed_countsExact; assumption.
  - injection E as <-. apply processLoop_countsExact. assumption.
Qed.

(** X8. When every [storeBacklog] call is given the validator of the
    message's own sender, the per-sender counter of an address is, after
    any sequence of calls, exactly the number of parked messages of that
    sender; in particular it is never negative. *)
Theorem sender_counter_counts_parked (ops : list backlogOp) (b : backlog) :
  Forall senderMatches ops → runOps ops emptyBacklog = Returns b →
  ∀ a, countOf (backlogCountByVal b) a
       = mapSum (parkedFrom a) (backlogBySeq b) ∧
       0 ≤ countOf (backlogCountByVal b) a.
Proof.
  intros Hok Hrun a.
  assert (Hb : countsExact b).
  { revert Hrun. apply (runOps_invariant_on senderMatches); [| |assumption].
    - intros a'. unfold countOf. simpl. rewrite lookup_empty.
      symmetry. apply mapSum_empty.
    - intros o b0 b1. apply runOp_countsExact. }
  split; [apply Hb|]. rewrite Hb. apply mapSum_nonneg.
  intros q. unfold parkedFrom. lia.
Qed.

Lemma sender_counter_counts_parked_witness :
  countOf (backlogCountByVal scenario3Backlog) 1
    = mapSum (parkedFrom 1) (backlogBySeq scenario3Backlog) ∧
  0 ≤ countOf (backlogCountByVal scenario3Backlog) 1.
Proof.
  apply (sender_counter_counts_parked scenario3Stores).
  - repeat constructor.
  - vm_compute; reflexivity.
Defined.

(** ** Draining one queue *)

(** X9. [drainBacklogForSeq] removes the queue of the sequence and nothing
    else, lowers the global counter by the size of that queue and each
    per-sender counter by the number of its messages in it; for a
    sequence without queue nothing changes. Without callback nothing is
    posted. *)
Theorem drainBacklogForSeq_effect (c : core) (seq : Z)
    (cb : option (Message → Address → list backlogEvent)) (b : backlog) :
  backlogBySeq (fst (drainBacklogForSeq c seq cb b))
    = delete seq (backlogBySeq b) ∧
  backlogTotal (fst (drainBacklogForSeq c seq cb b))
    = backlogTotal b - prque.Size (queueAt b seq) ∧
  (∀ a, countOf (backlogCountByVal (fst (drainBacklogForSeq c seq cb b))) a
        = countOf (backlogCountByVal b) a - parkedFrom a (queueAt b seq)) ∧
  (backlogBySeq b !! seq = None → drainBacklogForSeq c seq cb b = (b, [])) ∧
  snd (drainBacklogForSeq c seq None b) = [].
Proof.
  split; [apply drain_bySeq|].
  split; [|split; [|split; [|apply drain_events_nil]]].
  - unfold drainBacklogForSeq, queueAt.
    destruct (backlogBySeq b !! seq) as [q|];
      [|simpl; unfold prque.Size; simpl; lia].
    pose proof (drainLoop_counters c cb q (backlogCountByVal b) (backlogTotal b)) as D.
    destruct (drainLoop c cb q _ _) as [[cs t] evs]. simpl. tauto.
  - intros a. unfold drainBacklogForSeq, queueAt.
    destruct (backlogBySeq b !! seq) as [q|].
    + pose proof (drainLoop_counts_exact c cb q (backlogCountByVal b)
                    (backlogTotal b) a) as D.
      destruct (drainLoop c cb q _ _) as [[cs t] evs]. exact D.
    + change (countOf (backlogCountByVal b) a
              = countOf (backlogCountByVal b) a - 0). lia.
  - intros Hk. unfold drainBacklogForSeq. rewrite Hk. reflexivity.
Qed.

(** ** The sorted keys *)

Lemma StronglySorted_le_lt (l : list Z) :
  StronglySorted Z.le l → NoDup l → StronglySorted Z.lt l.
Proof.
  induction 1 as [|x l Hl IH Hall]; intros Hnd; [constructor|].
  apply NoDup_cons in Hnd as [Hx Hnd]. constructor; [auto|].
  rewrite Forall_forall in *. intros y Hy.
  specialize (Hall y Hy). assert (x ≠ y) by (intros ->; contradiction). lia.
Qed.

Lemma getSortedBacklogSeqs_strict (b : backlog) :
  StronglySorted Z.lt (getSortedBacklogSeqs b).
Proof.
  apply StronglySorted_le_lt; [apply getSortedBacklogSeqs_sorted|].
  unfold getSortedBacklogSeqs. rewrite merge_sort_Permutation.
  apply NoDup_elements.
Qed.

(** X10. [getSortedBacklogSeqs] returns the sequences that have a queue,
    each once, in strictly ascending order. *)
Theorem getSortedBacklogSeqs_spec (b : backlog) :
  StronglySorted Z.lt (getSortedBacklogSeqs b) ∧
  (∀ k, k ∈ getSortedBacklogSeqs b ↔ is_Some (backlogBySeq b !! k)) ∧
  length (getSortedBacklogSeqs b) = queueCount b.
Proof.
  assert (Hp : getSortedBacklogSeqs b ≡ₚ elements (dom (backlogBySeq b)))
    by apply merge_sort_Permutation.
  split; [|split].
  - apply getSortedBacklogSeqs_strict.
  - apply getSortedBacklogSeqs_elem.
  - rewrite Hp. unfold queueCount. rewrite <- size_dom. reflexivity.
Qed.

(** ** Pruning under the global cap *)

Lemma pruneLoop_keeps (c : core) (l : list Z) (b : backlog) (k : Z) :
  k ∉ l ∨ k ≤ currentKey c →
  backlogBySeq (pruneLoop c l b) !! k = backlogBySeq b !! k.
Proof.
  revert b. induction l as [|seq rest IH]; intros b Hk; simpl; [reflexivity|].
  fold (currentKey c).
  destruct (Z.leb_spec seq (currentKey c)) as [Hle|Hgt]; simpl; [reflexivity|].
  destruct (_ <? _); [reflexivity|].
  rewrite IH, drain_bySeq.
  - apply lookup_delete_ne. intros ->.
    destruct Hk as [Hk|Hk]; [apply Hk; left | lia].
  - destruct Hk as [Hk|Hk]; [left | right; assumption].
    intros Hin. apply Hk. right. assumption.
Qed.

Lemma pruneLoop_stops (c : core) (l : list Z) (b : backlog) :
  StronglySorted (λ x y, y ≤ x) l →
  backlogTotal (pruneLoop c l b)
    < acceptMaxFutureMessages - acceptMaxFutureMessagesPruneBatch ∨
  (∀ k, k ∈ l → is_Some (backlogBySeq (pruneLoop c l b) !! k) →
        k ≤ currentKey c).
Proof.
  revert b. induction l as [|seq rest IH]; intros b Hs; simpl.
  - right. intros k Hk. inversion Hk.
  - fold (currentKey c). apply StronglySorted_inv in Hs as [Hs Hall].
    destruct (Z.leb_spec seq (currentKey c)) as [Hle|Hgt]; simpl.
    + right. intros k Hk _. apply elem_of_cons in Hk as [->|Hk]; [assumption|].
      rewrite Forall_forall in Hall. specialize (Hall k Hk). simpl in Hall. lia.
    + destruct (Z.ltb_spec (backlogTotal b)
                  (acceptMaxFutureMessages - acceptMaxFutureMessagesPruneBatch))
        as [Hlow|Hhigh]; [left; assumption|].
      destruct (IH (fst (drainBacklogForSeq c seq None b)) Hs) as [H|H];
        [left; assumption|].
      right. intros k Hk Hsome. apply elem_of_cons in Hk as [->|Hk]; [|auto].
      destruct Hsome as [q Hq]. apply pruneLoop_keys in Hq.
      rewrite drain_bySeq, lookup_delete_eq in Hq. discriminate.
Qed.

Lemma StronglySorted_rev_le (l : list Z) :
  StronglySorted Z.le l → StronglySorted (λ x y, y ≤ x) (rev l).
Proof.
  induction 1 as [|x l Hl IH Hall]; simpl; [constructor|].
  apply StronglySorted_app_2; [|assumption | repeat constructor].
  intros y z Hy Hz. apply list_elem_of_singleton in Hz. subst z.
  rewrite Forall_forall in Hall. apply Hall.
  apply list_elem_of_In. apply in_rev. apply list_elem_of_In. assumption.
Qed.

(** X11. The global cap is soft: after a [storeBacklog] that parked its
    message, the global counter is at most [acceptMaxFutureMessages], or
    else nothing more could be pruned: every queue left is for the lowest
    sequence of the backlog or for a sequence not above the current
    one. *)
Theorem storeBacklog_global_cap (c : core) (m : Message) (s : Address)
    (b b' : backlog) :
  storeBacklog c m s b = Returns b' →
  b' = b ∨
  backlogTotal b' ≤ acceptMaxFutureMessages ∨
  (∀ k, is_Some (backlogBySeq b' !! k) →
        k ≤ currentKey c ∨
        (∀ k', is_Some (backlogBySeq b' !! k') → k ≤ k')).
Proof.
  intros E. apply storeBacklog_cases in E
    as [-> | (v & vseq & prio & _ & _ & _ & _ & _ & Hb1)]; [left; reflexivity|].
  right. destruct Hb1 as [[Ht ->] | [Ht ->]]; [left; exact Ht|].
  set (b1 := pushedBacklog m s prio (Uint64 vseq) b).
  pose proof (getSortedBacklogSeqs_sorted b1) as Hs.
  pose proof (getSortedBacklogSeqs_elem b1) as He.
  destruct (getSortedBacklogSeqs b1) as [|h t] eqn:El; simpl.
  { right. intros k [q Hq]. simpl in Hq.
    assert (Hin : k ∈ []) by (apply He; eauto). inversion Hin. }
  apply StronglySorted_inv in Hs as [Hs Hall].
  destruct (pruneLoop_stops c (rev t) b1 (StronglySorted_rev_le t Hs)) as [H|H].
  { left. unfold acceptMaxFutureMessages, acceptMaxFutureMessagesPruneBatch in *.
    lia. }
  right. intros k Hk.
  assert (Hin : k ∈ h :: t).
  { apply He. destruct Hk as [q Hq]. apply pruneLoop_keys in Hq. eauto. }
  apply elem_of_cons in Hin as [->|Hin].
  - right. intros k' [q' Hq']. apply pruneLoop_keys in Hq'.
    assert (Hin' : k' ∈ h :: t) by (apply He; eauto).
    apply elem_of_cons in Hin' as [->|Hin']; [lia|].
    rewrite Forall_forall in Hall. apply Hall. assumption.
  - left. apply H; [|assumption].
    apply list_elem_of_In, in_rev. rewrite rev_involutive.
    apply list_elem_of_In. assumption.
Qed.

(** X12. Pruning spares the sequences that will be acted on soonest:
    [storeBacklog] leaves every queue for a sequence at or below the
    current one as it was, apart from pushing the new message, and the
    same holds for the queue of the lowest sequence when the new message
    is not for a lower one. *)
Theorem storeBacklog_prune_spares (c : core) (m : Message) (s : Address)
    (b b' : backlog) (k : Z) (q : prque.Prque Message) :
  storeBacklog c m s b = Returns b' →
  backlogBySeq b !! k = Some q →
  k ≤ currentKey c ∨
  ((∀ k', is_Some (backlogBySeq b !! k') → k ≤ k') ∧
   (∀ v vseq, Msg m = Some (Some v) → Sequence v = Some vseq →
              k ≤ Uint64 vseq)) →
  backlogBySeq b' !! k = Some q ∨
  ∃ prio, backlogBySeq b' !! k = Some (prque.Push m prio q).
Proof.
  intros E Hq Hk. apply storeBacklog_cases in E
    as [-> | (v & vseq & prio & _ & Hsw & Hseq & _ & _ & Hb1)]; [left; exact Hq|].
  set (b1 := pushedBacklog m s prio (Uint64 vseq) b) in *.
  assert (H1 : backlogBySeq b1 !! k = Some q
               ∨ backlogBySeq b1 !! k = Some (prque.Push m prio q)).
  { unfold b1, pushedBacklog. simpl. rewrite lookup_insert.
    destruct (decide (Uint64 vseq = k)) as [->|Hne]; [|left; exact Hq].
    right. rewrite Hq. reflexivity. }
  assert (Hm : Msg m = Some (Some v)).
  { revert Hsw. unfold storeSwitch.
    destruct (Code m =? MsgPreprepare); [auto|].
    destruct (_ || _); [auto|].
    destruct (Code m =? MsgRoundChange); [auto | discriminate]. }
  destruct Hb1 as [[_ ->] | [_ ->]].
  { destruct H1 as [H1|H1]; [left | right; exists prio]; exact H1. }
  assert (Hkeep : backlogBySeq
                    (pruneLoop c (rev (tail (getSortedBacklogSeqs b1))) b1) !! k
                  = backlogBySeq b1 !! k).
  { apply pruneLoop_keeps. destruct Hk as [Hk | [Hmin Hnew]]; [right; exact Hk|].
    left. pose proof (getSortedBacklogSeqs_strict b1) as Hs.
    pose proof (getSortedBacklogSeqs_elem b1) as He.
    destruct (getSortedBacklogSeqs b1) as [|h t] eqn:El; simpl;
      [intros Hin; inversion Hin|].
    intros Hin. apply list_elem_of_In, in_rev, list_elem_of_In in Hin.
    apply StronglySorted_inv in Hs as [Hs Hall].
    rewrite Forall_forall in Hall. specialize (Hall k Hin).
    assert (Hh : is_Some (backlogBySeq b1 !! h)) by (apply He; left).
    assert (k ≤ h); [|lia].
    destruct Hh as [qh Hh]. unfold b1, pushedBacklog in Hh. simpl in Hh.
    rewrite lookup_insert in Hh.
    destruct (decide (Uint64 vseq = h)) as [<-|Hne];
      [apply (Hnew v vseq); assumption | apply Hmin; eauto]. }
  rewrite Hkeep. destruct H1 as [H1|H1]; [left | right; exists prio]; exact H1.
Qed.

Lemma pressureCheck_true : pressureCheck = true.
Proof. vm_compute. reflexivity. Qed.

Lemma pressureBacklog_facts :
  runOps pressureOps emptyBacklog = Returns pressureBacklog ∧
  backlogTotal pressureBacklog = 10000 ∧
  getSortedBacklogSeqs pressureBacklog = [6; 7; 8] ∧
  storeBacklog coreAt5 (prepareAt 11 8) 11%N pressureBacklog
    = Returns pressureAfter ∧
  backlogTotal pressureAfter = 7000 ∧
  getSortedBacklogSeqs pressureAfter = [6; 7] ∧
  prque.Size (queueAt pressureAfter 6) = 3000.
Proof.
  pose proof pressureCheck_true as H.
  unfold pressureCheck, pressureAfter, pressureBacklog in *.
  destruct (runOps pressureOps emptyBacklog) as [b|]; [|discriminate H].
  destruct (storeBacklog coreAt5 (prepareAt 11 8) 11%N b) as [b'|];
    [|rewrite andb_false_r in H; discriminate H].
  rewrite !andb_true_iff, !Z.eqb_eq, !bool_decide_eq_true in H.
  tauto.
Qed.

Lemma storeBacklog_global_cap_witness :
  backlogTotal pressureBacklog = 10000 ∧
  backlogTotal pressureAfter = 7000 ∧
  (pressureAfter = pressureBacklog ∨
   backlogTotal pressureAfter ≤ acceptMaxFutureMessages ∨
   (∀ k, is_Some (backlogBySeq pressureAfter !! k) →
         k ≤ currentKey coreAt5 ∨
         (∀ k', is_Some (backlogBySeq pressureAfter !! k') → k ≤ k'))).
Proof.
  destruct pressureBacklog_facts as (_ & Ht & _ & Hst & Ht' & _).
  split; [exact Ht|]. split; [exact Ht'|].
  apply (storeBacklog_global_cap coreAt5 (prepareAt 11 8) 11%N). exact Hst.
Defined.

Lemma storeBacklog_prune_spares_witness :
  getSortedBacklogSeqs pressureBacklog = [6; 7; 8] ∧
  getSortedBacklogSeqs pressureAfter = [6; 7] ∧
  (backlogBySeq pressureAfter !! 6 = Some (queueAt pressureBacklog 6) ∨
   ∃ prio, backlogBySeq pressureAfter !! 6
           = Some (prque.Push (prepareAt 11 8) prio
                     (queueAt pressureBacklog 6))).
Proof.
  destruct pressureBacklog_facts as (_ & _ & Hk & Hst & _ & Hk' & _).
  split; [exact Hk|]. split; [exact Hk'|].
  assert (Hq : backlogBySeq pressureBacklog !! 6
               = Some (queueAt pressureBacklog 6)).
  { assert (H6 : is_Some (backlogBySeq pressureBacklog !! 6)).
    { apply getSortedBacklogSeqs_elem. rewrite Hk. left. }
    destruct H6 as [q Hq]. unfold queueAt. rewrite Hq. reflexivity. }
  apply (storeBacklog_prune_spares coreAt5 (prepareAt 11 8) 11%N
           pressureBacklog pressureAfter 6 _ Hst Hq).
  right. split.
  - intros k' Hk'0. apply getSortedBacklogSeqs_elem in Hk'0.
    rewrite Hk in Hk'0.
    repeat (apply elem_of_cons in Hk'0 as [Hk'0|Hk'0]; [lia|]).
    inversion Hk'0.
  - intros v vseq Hv Hs. injection Hv as <-. injection Hs as <-.
    vm_compute. discriminate.
Defined.

(** ** Replay: what is posted, what is kept *)

Lemma processLoop_keeps (c : core) (seqs : list Z) (b : backlog) (k : Z) :
  currentKey c < k →
  backlogBySeq (fst (processLoop c seqs b)) !! k = backlogBySeq b !! k.
Proof.
  intros Hk. revert b. induction seqs as [|seq rest IH]; intros b; simpl;
    [reflexivity|].
  fold (currentKey c).
  destruct (Z.ltb_spec seq (currentKey c)) as [Hlt|Hge].
  - rewrite IH, drain_bySeq. apply lookup_delete_ne. lia.
  - destruct (Z.eqb_spec seq (currentKey c)) as [Heq|Hne]; [|reflexivity].
    pose proof (drain_bySeq c seq (Some (replayCallback c)) b) as Dk.
    destruct (drainBacklogForSeq c seq _ b) as [b1 evs]. simpl in Dk.
    specialize (IH b1). destruct (processLoop c rest b1) as [b2 evs'].
    simpl in *. rewrite IH, Dk. apply lookup_delete_ne. lia.
Qed.

Lemma queueAt_absent (b : backlog) (k : Z) :
  ¬ is_Some (backlogBySeq b !! k) → queueAt b k = [].
Proof.
  unfold queueAt. destruct (backlogBySeq b !! k); [|reflexivity].
  intros H. exfalso. apply H. eauto.
Qed.

Lemma processLoop_events_exact (c : core) (seqs : list Z) (b : backlog) :
  StronglySorted Z.le seqs →
  (is_Some (backlogBySeq b !! currentKey c) → currentKey c ∈ seqs) →
  snd (processLoop c seqs b)
  = concat (map (replayPost c) (queueAt b (currentKey c))).
Proof.
  intros Hs. revert b.
  induction Hs as [|seq rest Hs IH Hall]; intros b Hin.
  - rewrite queueAt_absent; [reflexivity|]. intros H.
    specialize (Hin H). inversion Hin.
  - simpl. fold (currentKey c).
    destruct (Z.ltb_spec seq (currentKey c)) as [Hlt|Hge].
    + rewrite IH.
      * unfold queueAt. rewrite drain_bySeq, lookup_delete_ne by lia.
        reflexivity.
      * rewrite drain_bySeq, lookup_delete_ne by lia. intros H.
        specialize (Hin H). apply elem_of_cons in Hin as [Hin|Hin]; [lia|].
        assumption.
    + destruct (Z.eqb_spec seq (currentKey c)) as [->|Hne].
      * pose proof (drain_events_replay c (currentKey c) b) as De.
        pose proof (drain_bySeq c (currentKey c) (Some (replayCallback c)) b)
          as Dk.
        destruct (drainBacklogForSeq c _ _ b) as [b1 evs]. simpl in De, Dk.
        pose proof (processLoop_events c rest b1) as Hev.
        unfold queueAt in Hev. rewrite Dk, lookup_delete_eq in Hev.
        simpl in Hev.
        destruct (processLoop c rest b1) as [b2 evs']. simpl in *.
        assert (evs' = []) as -> by (destruct Hev; assumption).
        rewrite app_nil_r. exact De.
      * simpl. rewrite queueAt_absent; [reflexivity|]. intros H.
        specialize (Hin H). apply elem_of_cons in Hin as [Hin|Hin]; [lia|].
        rewrite Forall_forall in Hall. specialize (Hall _ Hin). lia.
Qed.

Lemma replayPost_elem (c : core) (x : Message * Z) (e : backlogEvent) :
  e ∈ replayPost c x ↔
  msg e = fst x ∧ GetByAddress c (MsgAddress (fst x)) = Some (src e) ∧
  ∃ view, replaySwitch (fst x) = Some view ∧
          checkMessage c (Code (fst x)) (Some view) = Admit.
Proof.
  unfold replayPost, replayCallback, Admit.
  destruct (GetByAddress c (MsgAddress (fst x))) as [s|].
  2: { rewrite elem_of_nil. split; [tauto | intros (_ & H & _); discriminate]. }
  destruct (replaySwitch (fst x)) as [view|].
  2: { rewrite elem_of_nil. split; [tauto|].
       intros (_ & _ & v & H & _). discriminate. }
  destruct (checkMessage c (Code (fst x)) (Some view)) as [err|] eqn:E.
  { rewrite elem_of_nil. split; [tauto|].
    intros (_ & _ & v & [= <-] & H). congruence. }
  rewrite list_elem_of_singleton. split.
  - intros ->. simpl. eauto.
  - intros (Hm & [= Hs] & _). destruct e as [s' m']. simpl in *. congruence.
Qed.

(** X13. What replay posts: [processBacklog] posts, in pop order, exactly
    the messages of the queue of the current sequence whose sender is
    still in the validator set, whose payload decodes to a view and which
    [checkMessage] admits; every other message of that queue is dropped
    (the queue is deleted), whatever [checkMessage] answers for it. *)
Theorem processBacklog_posts (c : core) (b : backlog) :
  snd (processBacklog c b)
    = concat (map (replayPost c) (queueAt b (currentKey c))) ∧
  (∀ e, e ∈ snd (processBacklog c b) ↔
        ∃ p view,
          (msg e, p) ∈ queueAt b (currentKey c) ∧
          GetByAddress c (MsgAddress (msg e)) = Some (src e) ∧
          replaySwitch (msg e) = Some view ∧
          checkMessage c (Code (msg e)) (Some view) = Admit) ∧
  backlogBySeq (fst (processBacklog c b)) !! currentKey c = None.
Proof.
  assert (E : snd (processBacklog c b)
              = concat (map (replayPost c) (queueAt b (currentKey c)))).
  { apply processLoop_events_exact; [apply getSortedBacklogSeqs_sorted|].
    apply getSortedBacklogSeqs_elem. }
  split; [exact E|]. split.
  - intros e. rewrite E. split.
    + intros He. apply list_elem_of_In, in_concat in He as (l & Hl & He).
      apply in_map_iff in Hl as ([m p] & <- & Hx).
      apply list_elem_of_In, replayPost_elem in He
        as (Hm & Hg & view & Hv & Hc). simpl in *.
      exists p, view. rewrite Hm. repeat split; try assumption.
      apply list_elem_of_In. assumption.
    + intros (p & view & Hx & Hg & Hv & Hc).
      apply list_elem_of_In, in_concat.
      exists (replayPost c (msg e, p)). split.
      * apply in_map. apply list_elem_of_In. assumption.
      * apply list_elem_of_In, replayPost_elem. simpl. eauto.
  - apply processLoop_past; [apply getSortedBacklogSeqs_sorted| |lia].
    intros k Hk _. apply getSortedBacklogSeqs_elem. assumption.
Qed.

(** X14. Replay leaves the future alone: the queues for sequences above
    the current one are the same before and after [processBacklog], and
    replaying a second time at the same view posts nothing and changes
    nothing. *)
Theorem processBacklog_keeps_future (c : core) (b : backlog) :
  (∀ k, currentKey c < k →
        backlogBySeq (fst (processBacklog c b)) !! k = backlogBySeq b !! k) ∧
  processBacklog c (fst (processBacklog c b)) = (fst (processBacklog c b), []).
Proof.
  split; [intros k Hk; apply processLoop_keeps; assumption|].
  set (b1 := fst (processBacklog c b)).
  assert (Hpast : ∀ k, k ≤ currentKey c → backlogBySeq b1 !! k = None).
  { apply processLoop_past; [apply getSortedBacklogSeqs_sorted|].
    intros k Hk _. apply getSortedBacklogSeqs_elem. assumption. }
  unfold processBacklog at 1.
  pose proof (getSortedBacklogSeqs_elem b1) as He.
  destruct (getSortedBacklogSeqs b1) as [|h t]; [reflexivity|].
  assert (Hh : currentKey c < h).
  { destruct (Z.lt_ge_cases (currentKey c) h) as [Hlt|Hge]; [assumption|].
    assert (Hs : is_Some (backlogBySeq b1 !! h)) by (apply He; left).
    rewrite Hpast in Hs by lia. destruct Hs as [q Hq]. discriminate. }
  simpl. fold (currentKey c).
  destruct (Z.ltb_spec h (currentKey c)); [lia|].
  destruct (Z.eqb_spec h (currentKey c)); [lia | reflexivity].
Qed.

Lemma GetByAddress_In (c : core) (a : Address) :
  In a (valSet c) → GetByAddress c a = Some a.
Proof.
  intros Hin. unfold GetByAddress.
  assert (E : existsb (N.eqb a) (valSet c) = true).
  { apply existsb_exists. exists a. split; [assumption | apply N.eqb_refl]. }
  rewrite E. reflexivity.
Qed.

(** X15. Park and replay: a message of one of the four kinds with a
    well-formed view, from a sender other than the core itself whose
    counter is within the cap, stored while the global counter is below
    the cap, is posted by the next [processBacklog] run at the sequence
    of its view, with its sender as source, provided the sender is then
    a validator and [checkMessage] then admits the message. *)
Theorem store_then_replay (c c' : core) (m : Message) (s : Address)
    (b : backlog) (vs vr : Z) :
  MsgAddress m ≠ selfAddress c →
  isKind (Code m) = true →
  Msg m = Some (newView vs vr) →
  countOf (backlogCountByVal b) (MsgAddress m)
    ≤ acceptMaxFutureMsgsFromOneValidator →
  backlogTotal b < acceptMaxFutureMessages →
  currentKey c' = Uint64 vs →
  In (MsgAddress m) (valSet c') →
  checkMessage c' (Code m) (newView vs vr) = Admit →
  ∃ b', storeBacklog c m s b = Returns b' ∧
        {| src := MsgAddress m; msg := m |} ∈ snd (processBacklog c' b').
Proof.
  intros Hs Hk Hm Hc Ht Hkey Hv Hadm.
  assert (Hp : ∃ prio, toPriority (Code m) (newView vs vr) = Some prio).
  { unfold toPriority, newView. destruct (Code m =? MsgRoundChange); eauto. }
  destruct Hp as [prio Hp].
  exists (pushedBacklog m s prio (Uint64 vs) b). split.
  - unfold storeBacklog.
    destruct (N.eqb_spec (MsgAddress m) (selfAddress c)); [contradiction|].
    rewrite (storeSwitch_kind m Hk), Hm.
    destruct (Z.gtb_spec (countOf (backlogCountByVal b) (MsgAddress m))
                acceptMaxFutureMsgsFromOneValidator); [lia|].
    unfold newView in *. rewrite Hp.
    destruct (Z.gtb_spec (backlogTotal b + 1) acceptMaxFutureMessages); [lia|].
    reflexivity.
  - assert (E : snd (processBacklog c' (pushedBacklog m s prio (Uint64 vs) b))
                = concat (map (replayPost c')
                    (queueAt (pushedBacklog m s prio (Uint64 vs) b)
                             (currentKey c')))).
    { apply processLoop_events_exact; [apply getSortedBacklogSeqs_sorted|].
      apply getSortedBacklogSeqs_elem. }
    rewrite E, Hkey. unfold queueAt, pushedBacklog. simpl.
    rewrite lookup_insert_eq. simpl.
    apply list_elem_of_In, in_concat. exists (replayPost c' (m, prio)). split.
    + apply in_map, list_elem_of_In, Push_elem. left. reflexivity.
    + apply list_elem_of_In, replayPost_elem. simpl.
      split; [reflexivity|]. split; [apply GetByAddress_In; assumption|].
      assert (Hsw : storeSwitch m = Some (newView vs vr))
        by (rewrite (storeSwitch_kind m Hk); exact Hm).
      apply storeSwitch_replaySwitch in Hsw. eauto.
Qed.

Lemma store_then_replay_witness :
  ∃ b', storeBacklog coreAt5 (messageAt 1 MsgCommit 6 0) 1%N emptyBacklog
          = Returns b' ∧
        {| src := 1%N; msg := messageAt 1 MsgCommit 6 0 |}
          ∈ snd (processBacklog (coreAt6 StatePreprepared) b').
Proof.
  apply (store_then_replay coreAt5 (coreAt6 StatePreprepared)
           (messageAt 1 MsgCommit 6 0) 1%N emptyBacklog 6 0).
  - discriminate.
  - reflexivity.
  - reflexivity.
  - vm_compute. discriminate.
  - vm_compute. reflexivity.
  - reflexivity.
  - left. reflexivity.
  - reflexivity.
Defined.

Lemma sender_counter_bound_witness :
  countOf (backlogCountByVal floodedBacklog) 1 ≤ 1001.
Proof.
  apply (sender_counter_bound (floodOps 1002)).
  - apply Forall_forall. intros o Ho. apply list_elem_of_In in Ho.
    apply repeat_spec in Ho. subst o. reflexivity.
  - vm_compute. reflexivity.
Defined.

(** * Properties of the message set *)

Lemma ContainsByAddress_In (vals : list Address) (a : Address) :
  ContainsByAddress vals a = true ↔ In a vals.
Proof.
  unfold ContainsByAddress. rewrite existsb_exists. split.
  - intros (x & Hx & E). apply N.eqb_eq in E. subst x. assumption.
  - intros Hin. exists a. split; [assumption | apply N.eqb_refl].
Qed.

(** X17. [Add] of a message whose sender is not a validator returns
    [ErrUnauthorizedAddress] and leaves the set as it is; otherwise it
    returns nil, [Get] of the sender then yields the message, the other
    senders' messages are untouched, and [Size] grows by one exactly when
    the sender had no message before (a second message of a sender
    replaces the first). *)
Theorem msAdd_spec (ms : messageSet) (m : Message) :
  (¬ In (MsgAddress m) (msValSet ms) ∧
   msAdd ms m = (Some ErrUnauthorizedAddress, ms)) ∨
  (In (MsgAddress m) (msValSet ms) ∧
   fst (msAdd ms m) = None ∧
   msGet (snd (msAdd ms m)) (MsgAddress m) = Some m ∧
   (∀ a, a ≠ MsgAddress m → msGet (snd (msAdd ms m)) a = msGet ms a) ∧
   msSize (snd (msAdd ms m))
   = match msGet ms (MsgAddress m) with
     | Some _ => msSize ms
     | None => S (msSize ms)
     end).
Proof.
  unfold msAdd.
  destruct (ContainsByAddress (msValSet ms) (MsgAddress m)) eqn:E; simpl.
  - right. apply ContainsByAddress_In in E. unfold msGet, msSize. simpl.
    split; [assumption|]. split; [reflexivity|].
    split; [apply lookup_insert_eq|].
    split; [intros a Ha; apply lookup_insert_ne; congruence|].
    destruct (messages ms !! MsgAddress m) as [m0|] eqn:Em.
    + rewrite <- (insert_delete_eq (messages ms)).
      rewrite map_size_insert_None by apply lookup_delete_eq.
      rewrite <- (insert_delete_id (messages ms) (MsgAddress m) m0) at 2
        by assumption.
      rewrite map_size_insert_None by apply lookup_delete_eq. reflexivity.
    + apply map_size_insert_None. assumption.
  - left. split; [|reflexivity]. intros Hin.
    apply ContainsByAddress_In in Hin. congruence.
Qed.

Lemma msRunOp_wellFormed (ms : messageSet) (o : msOp) :
  msWellFormed ms → msWellFormed (msRunOp ms o) ∧
                    msValSet (msRunOp ms o) = msValSet ms.
Proof.
  intros Hwf. destruct o as [m|a]; simpl.
  - unfold msAdd.
    destruct (ContainsByAddress (msValSet ms) (MsgAddress m)) eqn:E; simpl;
      [|auto].
    split; [|reflexivity]. intros a m'. simpl. rewrite lookup_insert.
    destruct (decide (MsgAddress m = a)) as [<-|Hne]; [|apply Hwf].
    intros [= <-]. split; [reflexivity|]. apply ContainsByAddress_In, E.
  - split; [|reflexivity]. intros a' m'. simpl. intros H.
    apply lookup_delete_Some in H as [_ H]. apply Hwf. assumption.
Qed.

Lemma msRunOps_wellFormed (ops : list msOp) (ms : messageSet) :
  msWellFormed ms → msWellFormed (msRunOps ops ms) ∧
                    msValSet (msRunOps ops ms) = msValSet ms.
Proof.
  revert ms. induction ops as [|o ops IH]; intros ms Hwf; simpl; [auto|].
  destruct (msRunOp_wellFormed ms o Hwf) as [H1 H2].
  destruct (IH _ H1) as [H3 H4]. split; [assumption | congruence].
Qed.

Lemma NoDup_incl_length_Z {A : Type} (l l' : list A) :
  NoDup l → (∀ x, x ∈ l → x ∈ l') → (length l ≤ length l')%nat.
Proof.
  intros Hnd Hincl. apply submseteq_length, NoDup_submseteq; assumption.
Qed.

(** X18. After any sequence of [Add] and [Remove] calls on a new message
    set, every message is filed under its own address, that address
    belongs to the validator set, and the set never holds more messages
    than there are validators. *)
Theorem messageSet_invariant (vals : list Address) (ops : list msOp) :
  (∀ a m, msGet (msRunOps ops (newMessageSet vals)) a = Some m →
          MsgAddress m = a ∧ In a vals) ∧
  (msSize (msRunOps ops (newMessageSet vals)) ≤ length vals)%nat.
Proof.
  assert (H0 : msWellFormed (newMessageSet vals)).
  { intros a m H. simpl in H. rewrite lookup_empty in H. discriminate. }
  destruct (msRunOps_wellFormed ops _ H0) as [Hwf Hv]. simpl in Hv.
  split.
  - intros a m H. destruct (Hwf a m H) as [H1 H2]. rewrite Hv in H2. auto.
  - unfold msSize. rewrite <- size_dom.
    unfold size, set_size. simpl.
    apply NoDup_incl_length_Z; [apply NoDup_elements|].
    intros a Ha. apply elem_of_elements, elem_of_dom in Ha as [m Hm].
    destruct (Hwf a m Hm) as [_ Hin]. rewrite Hv in Hin.
    apply list_elem_of_In. assumption.
Qed.

(** X19. [Remove] deletes the sender's message and nothing else: [Get] of
    that sender is nil afterwards, the others are as before, [Size]
    drops by one exactly when there was a message; and removing a sender
    right after adding its first message gives the set back. *)
Theorem msRemove_spec (ms : messageSet) (a : Address) :
  msGet (msRemove ms a) a = None ∧
  (∀ a', a' ≠ a → msGet (msRemove ms a) a' = msGet ms a') ∧
  msSize ms = match msGet ms a with
              | Some _ => S (msSize (msRemove ms a))
              | None => msSize (msRemove ms a)
              end ∧
  (∀ m, MsgAddress m = a → msGet ms a = None →
        msRemove (snd (msAdd ms m)) a = ms).
Proof.
  unfold msGet, msSize, msRemove. simpl.
  split; [apply lookup_delete_eq|].
  split; [intros a' Ha; apply lookup_delete_ne; congruence|].
  split.
  - destruct (messages ms !! a) as [m|] eqn:E.
    + rewrite <- (insert_delete_id (messages ms) a m) at 1 by assumption.
      apply map_size_insert_None, lookup_delete_eq.
    + rewrite delete_id by assumption. reflexivity.
  - intros m Hm Hnone. unfold msAdd.
    destruct (negb _); simpl; destruct ms as [vals msgs]; simpl in *; f_equal.
    + apply delete_id. assumption.
    + rewrite Hm, delete_insert_eq. apply delete_id. assumption.
Qed.

(** X20. [Values] lists every message of the set once: it has [Size]
    elements, and a message is listed exactly when [Get] returns it for
    some address. *)
Theorem msValues_spec (ms : messageSet) :
  length (msValues ms) = msSize ms ∧
  (∀ m, m ∈ msValues ms ↔ ∃ a, msGet ms a = Some m).
Proof.
  unfold msValues, msSize, msGet. split.
  - rewrite length_fmap. apply length_map_to_list.
  - intros m. rewrite list_elem_of_fmap. split.
    + intros ([a m'] & -> & Hin). exists a.
      apply elem_of_map_to_list in Hin. assumption.
    + intros [a Ha]. exists (a, m). split; [reflexivity|].
      apply elem_of_map_to_list. assumption.
Qed.

Lemma decodeLoop_Panic (i : nat) (keys : list Address) (values : list Message)
    (acc : gmap N Message) :
  (i ≤ length values)%nat →
  decodeLoop i keys values acc = Panic
  ↔ (length values < i + length keys)%nat.
Proof.
  revert i acc. induction keys as [|k keys IH]; intros i acc Hi; simpl.
  - split; [discriminate | lia].
  - destruct (values !! i) as [v|] eqn:E.
    + apply lookup_lt_Some in E. rewrite IH by lia. lia.
    + apply lookup_ge_None in E. split; [lia | reflexivity].
Qed.

(** X22. [DecodeRLP] on damaged input: when the stream does not decode,
    the set is left as it is; when it decodes to fewer message values
    than keys, the loop indexes [messageValues] out of range (a run-time
    panic), and in no other case; with duplicate keys the last value
    wins. *)
Theorem msDecodeRLP_edges (ms0 : messageSet) :
  msDecodeRLP ms0 None = Returns (false, ms0) ∧
  (∀ vals keys values,
     msDecodeRLP ms0 (Some (vals, keys, values)) = Panic
     ↔ (length values < length keys)%nat) ∧
  (∀ vals a m1 m2,
     msDecodeRLP ms0 (Some (vals, [a; a], [m1; m2]))
     = Returns (true, {| msValSet := vals; messages := {[a := m2]} |})).
Proof.
  split; [reflexivity|]. split.
  - intros vals keys values. unfold msDecodeRLP.
    pose proof (decodeLoop_Panic 0 keys values ∅ ltac:(lia)) as H.
    destruct (decodeLoop 0 keys values ∅) as [msgs|].
    + split; [discriminate|]. intros Hl. apply H in Hl. discriminate.
    + split; [intros _; apply H; reflexivity | reflexivity].
  - intros vals a m1 m2. unfold msDecodeRLP. simpl.
    rewrite insert_insert_eq, insert_empty. reflexivity.
Qed.

(** * Properties of the gas accounting *)

Lemma uint64_small (x : Z) : 0 ≤ x < two64 → uint64 x = x.
Proof. intros H. unfold uint64. apply Z.mod_small. assumption. Qed.

Lemma countNonZero_spec (data : list Z) (nz : Z) :
  0 ≤ nz → nz + Z.of_nat (length data) < two64 →
  countNonZero data nz = nz + nonZeroBytes data.
Proof.
  unfold nonZeroBytes. revert nz.
  induction data as [|byt rest IH]; intros nz Hnz Hlen; simpl countNonZero.
  - rewrite filter_nil. simpl. lia.
  - simpl length in Hlen. rewrite filter_cons.
    destruct (Z.eqb_spec byt 0) as [->|Hne]; simpl negb.
    + destruct (decide (0 ≠ 0)); [congruence|]. apply IH; lia.
    + destruct (decide (byt ≠ 0)); [|contradiction].
      rewrite uint64_small by lia. rewrite IH by lia. simpl length. lia.
Qed.

Lemma nonZeroBytes_bounds (data : list Z) :
  0 ≤ nonZeroBytes data ≤ Z.of_nat (length data).
Proof.
  unfold nonZeroBytes. pose proof (length_filter (λ byt, byt ≠ 0) data). lia.
Qed.

Lemma div_ltb_mul (a b q : Z) : 0 < b → (a / b <? q) = (a <? q * b).
Proof.
  intros Hb. destruct (Z.ltb_spec a (q * b)) as [H|H].
  - apply Z.ltb_lt. apply Z.div_lt_upper_bound; lia.
  - apply Z.ltb_ge. apply Z.div_le_lower_bound; lia.
Qed.

(** X23. The overflow guards of [IntrinsicGas] are exact: the result is
    the base gas plus the price of the non-zero bytes plus the price of
    the zero bytes, computed without wrap-around, whenever that sum fits
    in a [uint64], and [(0, ErrOutOfGas)] otherwise. *)
Theorem IntrinsicGas_exact (P : gasParams) (data : list Z)
    (contractCreation homestead : bool) :
  gasParamsOK P → Z.of_nat (length data) < two64 →
  IntrinsicGas P data contractCreation homestead
  = if exactIntrinsicGas P data contractCreation homestead <=? MaxUint64
    then (exactIntrinsicGas P data contractCreation homestead, None)
    else (0, Some ErrOutOfGas).
Proof.
  intros (Hg & Hc & Hz & Hn) Hlen.
  unfold IntrinsicGas, exactIntrinsicGas.
  set (base := if contractCreation && homestead
               then TxGasContractCreation P else TxGas P).
  assert (Hbase : 0 ≤ base < two64) by (unfold base; destruct (_ && _); lia).
  pose proof (nonZeroBytes_bounds data) as Hnz.
  unfold MaxUint64 in *.
  destruct (Z.ltb_spec 0 (Z.of_nat (length data))) as [Hpos|Hempty].
  2: { assert (Hl : length data = 0%nat) by lia.
       apply length_zero_iff_nil in Hl. subst data.
       unfold nonZeroBytes. rewrite filter_nil.
       change (Z.of_nat (length [])) with 0.
       replace (base + 0 * TxDataNonZeroGas P + (0 - 0) * TxDataZeroGas P)
         with base by lia.
       destruct (Z.leb_spec base (two64 - 1)); [reflexivity | lia]. }
  rewrite countNonZero_spec by lia. rewrite Z.add_0_l.
  set (nz := nonZeroBytes data) in *.
  rewrite (uint64_small (two64 - 1 - base)) by lia.
  rewrite div_ltb_mul by lia.
  destruct (Z.ltb_spec (two64 - 1 - base) (nz * TxDataNonZeroGas P)) as [H1|H1].
  { destruct (Z.leb_spec (base + nz * TxDataNonZeroGas P
        + (Z.of_nat (length data) - nz) * TxDataZeroGas P) (two64 - 1));
      [nia | reflexivity]. }
  assert (0 ≤ nz * TxDataNonZeroGas P) by nia.
  rewrite (uint64_small (nz * TxDataNonZeroGas P)) by lia.
  rewrite (uint64_small (base + nz * TxDataNonZeroGas P)) by lia.
  rewrite (uint64_small (Z.of_nat (length data))) by lia.
  rewrite (uint64_small (Z.of_nat (length data) - nz)) by lia.
  set (z := Z.of_nat (length data) - nz) in *.
  rewrite (uint64_small (two64 - 1 - (base + nz * TxDataNonZeroGas P))) by lia.
  rewrite div_ltb_mul by lia.
  assert (0 ≤ z * TxDataZeroGas P) by nia.
  destruct (Z.ltb_spec (two64 - 1 - (base + nz * TxDataNonZeroGas P))
              (z * TxDataZeroGas P)) as [H2|H2].
  - destruct (Z.leb_spec (base + nz * TxDataNonZeroGas P + z * TxDataZeroGas P)
                (two64 - 1)); [lia | reflexivity].
  - rewrite (uint64_small (z * TxDataZeroGas P)) by lia.
    rewrite uint64_small by lia.
    destruct (Z.leb_spec (base + nz * TxDataNonZeroGas P + z * TxDataZeroGas P)
                (two64 - 1)); [reflexivity | lia].
Qed.

Lemma IntrinsicGas_exact_witness :
  IntrinsicGas protocolGasParams [0; 1; 2; 0] false true
  = (21000 + 2 * 68 + 2 * 4, None).
Proof.
  rewrite (IntrinsicGas_exact protocolGasParams [0; 1; 2; 0] false true).
  - reflexivity.
  - vm_compute. intuition discriminate.
  - vm_compute. reflexivity.
Defined.

Lemma useGas_step (st : gasState) (a : Z) :
  0 ≤ a → 0 ≤ gas st ≤ initialGas st → initialGas st < two64 →
  let st' := fst (useGas st a) in
  initialGas st' = initialGas st ∧ 0 ≤ gas st' ≤ initialGas st ∧
  gas st' = match snd (useGas st a) with
            | None => gas st - a
            | Some _ => gas st
            end ∧
  (snd (useGas st a) = None ↔ a ≤ gas st).
Proof.
  intros Ha Hg Hi. unfold useGas.
  destruct (Z.ltb_spec (gas st) a) as [Hlt|Hge]; simpl.
  - intuition (try discriminate; lia).
  - rewrite uint64_small by lia. intuition (try discriminate; lia).
Qed.

(** X24. Gas is only ever charged in full: starting with [gas] equal to
    [initialGas], after any series of [useGas] calls the gas left never
    exceeds the initial gas nor wraps below 0, a call that returns
    [ErrOutOfGas] charges nothing, and [gasUsed] is exactly the total of
    the amounts of the calls that returned nil. *)
Theorem useGas_accounting (g0 : Z) (amounts : list Z) :
  0 ≤ g0 < two64 → Forall (λ a, 0 ≤ a) amounts →
  let st0 := {| gas := g0; initialGas := g0 |} in
  0 ≤ gas (fst (useGasAll st0 amounts)) ≤ g0 ∧
  gasUsed (fst (useGasAll st0 amounts)) = snd (useGasAll st0 amounts) ∧
  gas (fst (useGasAll st0 amounts)) + snd (useGasAll st0 amounts) = g0.
Proof.
  intros Hg0 Hpos st0.
  assert (G : ∀ st, 0 ≤ gas st ≤ initialGas st → initialGas st < two64 →
            let r := useGasAll st amounts in
            initialGas (fst r) = initialGas st ∧
            0 ≤ gas (fst r) ≤ initialGas st ∧
            gas (fst r) + snd r = gas st).
  { induction Hpos as [|a rest Ha Hrest IH]; intros st Hst Hi; simpl.
    - repeat split; lia.
    - pose proof (useGas_step st a Ha Hst Hi) as (H1 & H2 & H3 & H4).
      destruct (useGas st a) as [st' err]. simpl in *.
      specialize (IH st' ltac:(lia) ltac:(lia)).
      destruct (useGasAll st' rest) as [st'' charged]. simpl in *.
      destruct IH as (I1 & I2 & I3).
      destruct err; repeat split; lia. }
  specialize (G st0 ltac:(simpl; lia) ltac:(simpl; lia)).
  simpl in G. destruct G as (G1 & G2 & G3).
  split; [lia|]. split; [|lia].
  unfold gasUsed. rewrite G1. simpl initialGas.
  rewrite uint64_small by lia. lia.
Qed.

Lemma useGas_accounting_witness :
  let st0 := {| gas := 100; initialGas := 100 |} in
  0 ≤ gas (fst (useGasAll st0 [30; 90; 50])) ≤ 100 ∧
  gasUsed (fst (useGasAll st0 [30; 90; 50])) = snd (useGasAll st0 [30; 90; 50]) ∧
  gas (fst (useGasAll st0 [30; 90; 50])) + snd (useGasAll st0 [30; 90; 50]) = 100.
Proof.
  apply (useGas_accounting 100 [30; 90; 50]).
  - vm_compute. intuition discriminate.
  - repeat constructor; lia.
Defined.

(** ** Call data *)

Lemma copyInto_next (a s : list Z) (k : nat) :
  copyInto (a ++ replicate (length s + k) 0) (length a) (length a + length s) s
  = (a ++ s) ++ replicate k 0.
Proof.
  unfold copyInto.
  rewrite take_app_length.
  replace (length a + length s - length a)%nat with (length s) by lia.
  rewrite firstn_all, Nat.min_id, drop_app_add, drop_replicate.
  replace (length s + k - length s)%nat with k by lia.
  rewrite app_assoc. reflexivity.
Qed.

(** X25. [getEncodedAbi] returns the method selector followed by the two
    encoded arguments, whatever their lengths: nothing is truncated or
    overwritten, and the length is the sum of the three lengths. *)
Theorem getEncodedAbi_concat (methodSelector var1Abi var2Abi : list Z) :
  getEncodedAbi methodSelector var1Abi var2Abi
    = methodSelector ++ var1Abi ++ var2Abi ∧
  length (getEncodedAbi methodSelector var1Abi var2Abi)
    = (length methodSelector + length var1Abi + length var2Abi)%nat.
Proof.
  assert (E : getEncodedAbi methodSelector var1Abi var2Abi
              = methodSelector ++ var1Abi ++ var2Abi).
  { unfold getEncodedAbi.
    pose proof (copyInto_next [] methodSelector
                  (length var1Abi + length var2Abi)) as H1.
    simpl in H1. rewrite Nat.add_assoc in H1. rewrite H1.
    pose proof (copyInto_next methodSelector var1Abi (length var2Abi)) as H2.
    rewrite H2.
    pose proof (copyInto_next (methodSelector ++ var1Abi) var2Abi 0) as H3.
    rewrite Nat.add_0_r, length_app in H3. simpl in H3. rewrite H3.
    rewrite app_nil_r, <- app_assoc. reflexivity. }
  split; [exact E|]. rewrite E, !length_app. lia.
Qed.

(** ** Gas currencies *)

Lemma currencySet_lookup (l : list Address) (a : Address) :
  default false (currencySet l !! a) = true ↔ In a l.
Proof.
  unfold currencySet.
  assert (G : ∀ m : gmap N bool,
            default false (fold_left (λ m a, <[a := true]> m) l m !! a)
                   = true ↔ In a l ∨ default false (m !! a) = true).
  { induction l as [|x l IH]; intros m; simpl; [tauto|].
    rewrite IH, lookup_insert.
    destruct (decide (x = a)) as [->|Hne]; simpl; [tauto|].
    split; [tauto|]. intros [[H|H]|H]; [congruence | tauto | tauto]. }
  rewrite G, lookup_empty. simpl. split; [intros [H|H]; [auto|discriminate]|auto].
Qed.

(** X26. The gas currencies are fixed by the first transition whose EVM
    carries a currency list: after any series of
    [maybeInitCurrencyAddresses] calls, [isValidGasCurrency] accepts
    exactly the addresses of the first non-nil list, later lists are
    ignored, and before any such list every currency is invalid. *)
Theorem gasCurrencies_fixed_by_first (evms : list (option (list Address)))
    (a : Address) :
  isValidGasCurrency
    (fold_left (λ g e, maybeInitCurrencyAddresses e g) evms None) a = true
  ↔ ∃ l, firstCurrencies evms = Some l ∧ In a l.
Proof.
  assert (Hset : ∀ evms m,
            fold_left (λ g e, maybeInitCurrencyAddresses e g) evms (Some m)
            = Some m).
  { intros es m. induction es as [|e es IH]; simpl; [reflexivity|].
    destruct e; exact IH. }
  induction evms as [|e evms IH]; simpl.
  - split; [discriminate | intros (l & H & _); discriminate].
  - destruct e as [l|]; simpl.
    + rewrite Hset. simpl. rewrite currencySet_lookup. split.
      * intros H. exists l. auto.
      * intros (l' & [= <-] & H). assumption.
    + exact IH.
Qed.

(** * Properties of the gas price floor cache *)

Lemma refreshCache_same (g : floorCache) :
  refreshCache g (cacheHeaderHash g) = g.
Proof. unfold refreshCache. rewrite N.eqb_refl. reflexivity. Qed.

(** X27. A successful [GetGasPriceFloor] is served from the cache for the
    rest of the block: after a call that returned a floor without
    error, any further call for the same currency with a handler at the
    same header returns the same floor, without error and without
    changing the cache, whatever the oracle would answer now and
    whatever the registry holds. *)
Theorem GetGasPriceFloor_cached (g g' : floorCache) (h h' : StaticEvmHandler)
    (r r' : AddressRegistry) (currency : Address) (floor : option Z) :
  GetGasPriceFloor g (Some h) (Some r) (Some currency) = ((floor, None), g') →
  CurrentHeaderHash h' = CurrentHeaderHash h →
  GetGasPriceFloor g' (Some h') (Some r') (Some currency)
  = ((floor, None), g').
Proof.
  unfold GetGasPriceFloor. intros H Hh.
  assert (Hg' : cacheHeaderHash g' = CurrentHeaderHash h
                ∧ gasPriceFloorCache g' !! currency = Some floor).
  { assert (Hr : cacheHeaderHash (refreshCache g (CurrentHeaderHash h))
                 = CurrentHeaderHash h).
    { unfold refreshCache.
      destruct (N.eqb_spec (cacheHeaderHash g) (CurrentHeaderHash h));
        simpl; congruence. }
    destruct (gasPriceFloorCache (refreshCache g (CurrentHeaderHash h))
                !! currency) as [v|] eqn:E.
    - injection H as <- <-. auto.
    - destruct (GasPriceOracleAddress r) as [oracle|]; [|discriminate].
      destruct (MakeStaticCall h oracle currency) as [v [e|]];
        [discriminate|].
      injection H as <- <-. simpl. split; [assumption|].
      apply lookup_insert_eq. }
  destruct Hg' as [Hhash Hlook].
  rewrite Hh, <- Hhash, refreshCache_same, Hlook. reflexivity.
Qed.

Lemma GetGasPriceFloor_cached_witness :
  GetGasPriceFloor
    (snd (GetGasPriceFloor freshCache (Some handlerAt7) (Some registry12) None))
    (Some {| CurrentHeaderHash := 7%N;
             MakeStaticCall := λ _ _, (None, Some 3%nat) |})
    (Some {| GoldTokenAddress := None; GasPriceOracleAddress := None |})
    (Some 1%N)
  = ((Some 100, None),
     snd (GetGasPriceFloor freshCache (Some handlerAt7) (Some registry12) None)).
Proof.
  apply (GetGasPriceFloor_cached freshCache _ handlerAt7 _ registry12 _ 1%N);
    reflexivity.
Defined.

(** X28. The cache never outlives its header and an error never adds to
    it. With a handler, a registry and a currency (given, or the
    registered gold token): when the current header differs from the
    cached one, the result is the one an empty cache gives (floors of an
    earlier header are not served), and when the call returns an error
    the cache afterwards is the refreshed one and has no entry for that
    currency. When the handler or the registry is nil, or no currency
    can be resolved, the call returns an error and leaves the cache
    exactly as it was. *)
Theorem GetGasPriceFloor_cache_sound (g : floorCache)
    (iEvmH : option StaticEvmHandler) (regAdd : option AddressRegistry)
    (currencyAddress : option Address) :
  (∀ h r currency,
     iEvmH = Some h → regAdd = Some r →
     resolveCurrency r currencyAddress = Some currency →
     (cacheHeaderHash g ≠ CurrentHeaderHash h →
      GetGasPriceFloor g iEvmH regAdd currencyAddress
      = GetGasPriceFloor
          {| gasPriceFloorCache := ∅; cacheHeaderHash := cacheHeaderHash g |}
          iEvmH regAdd currencyAddress) ∧
     (snd (fst (GetGasPriceFloor g iEvmH regAdd currencyAddress)) ≠ None →
      snd (GetGasPriceFloor g iEvmH regAdd currencyAddress)
        = refreshCache g (CurrentHeaderHash h) ∧
      gasPriceFloorCache
        (snd (GetGasPriceFloor g iEvmH regAdd currencyAddress)) !! currency
      = None)) ∧
  (iEvmH = None ∨ regAdd = None ∨
   (∃ r, regAdd = Some r ∧ resolveCurrency r currencyAddress = None) →
   snd (fst (GetGasPriceFloor g iEvmH regAdd currencyAddress)) ≠ None ∧
   fst (fst (GetGasPriceFloor g iEvmH regAdd currencyAddress)) = Some 0 ∧
   snd (GetGasPriceFloor g iEvmH regAdd currencyAddress) = g).
Proof.
  split.
  - intros h r currency -> -> Hres. unfold GetGasPriceFloor.
    fold (resolveCurrency r currencyAddress). rewrite Hres. split.
    + intros Hne. unfold refreshCache. simpl.
      destruct (N.eqb_spec (cacheHeaderHash g) (CurrentHeaderHash h));
        [contradiction | reflexivity].
    + destruct (gasPriceFloorCache (refreshCache g (CurrentHeaderHash h))
                  !! currency) as [v|] eqn:E; simpl; [congruence|].
      destruct (GasPriceOracleAddress r) as [oracle|]; simpl; [|auto].
      destruct (MakeStaticCall h oracle currency) as [v [e|]]; simpl;
        [auto | congruence].
  - unfold GetGasPriceFloor.
    intros [-> | [-> | (r & -> & Hres)]].
    + simpl. repeat split. discriminate.
    + destruct iEvmH; simpl; repeat split; discriminate.
    + destruct iEvmH as [h|]; [|simpl; repeat split; discriminate].
      fold (resolveCurrency r currencyAddress). rewrite Hres. simpl.
      repeat split. discriminate.
Qed.

(** * Admission: which messages are old *)

(** X29. Which messages are dropped as old: [checkMessage] answers
    [errOldMessage] exactly for a [RoundChange] at or below the current
    sequence with a round below the desired round, and for a message of
    another kind below the current view, unless it is a [Commit] for
    which the last-committed-subject lookup fails or gives this very
    view. *)
Theorem checkMessage_Old_iff (c : core) (code vs vr : Z) :
  checkMessage c code (newView vs vr) = Old ↔
  (code = MsgRoundChange ∧ vs ≤ currentSequence c ∧ vr < DesiredRound c) ∨
  (code ≠ MsgRoundChange ∧ viewLt (vs, vr) (currentView c) ∧
   (code = MsgCommit →
    ∃ lastView, LastSubject c = inr lastView ∧ lastView ≠ (vs, vr))).
Proof.
  unfold checkMessage, Old. rewrite viewFields_newView, !bigCmp_gtb, bigCmp_ltb.
  unfold acceptMaxFutureSequence.
  destruct (Z.ltb_spec (currentSequence c + 10) vs) as [Hfar|Hnear].
  { split; [discriminate|]. unfold viewLt, currentView. simpl.
    intros [Hr | (_ & Hl & _)]; lia. }
  destruct (Z.eqb_spec code MsgRoundChange) as [->|Hrc].
  { destruct (Z.ltb_spec (currentSequence c) vs) as [Hs|Hs];
      [|destruct (Z.ltb_spec vr (DesiredRound c)) as [Hr|Hr]].
    - split; [discriminate|]. intros [Hx | (Hx & _)]; [lia | congruence].
    - split; [intros _; left; auto | reflexivity].
    - split; [discriminate|]. intros [Hx | (Hx & _)]; [lia | congruence]. }
  destruct (Cmp (vs, vr) (currentView c) >? 0) eqn:Egt.
  { apply Cmp_gt_iff in Egt. split; [discriminate|].
    unfold viewGt, viewLt in *. simpl in *.
    intros [(Hx & _) | (_ & Hl & _)]; [congruence | lia]. }
  destruct (Cmp (vs, vr) (currentView c) <? 0) eqn:Elt.
  { apply Cmp_lt_iff in Elt.
    destruct (Z.eqb_spec code MsgCommit) as [->|Hc].
    - destruct (LastSubject c) as [e|lastView] eqn:Els.
      + split; [discriminate|].
        intros [(Hx & _) | (_ & _ & Hl)]; [discriminate|].
        destruct (Hl eq_refl) as (lv & Hlv & _). discriminate.
      + destruct (Cmp (vs, vr) lastView =? 0) eqn:Eeq.
        * apply Cmp_eq_iff in Eeq. subst lastView. split; [discriminate|].
          intros [(Hx & _) | (_ & _ & Hl)]; [discriminate|].
          destruct (Hl eq_refl) as (lv & [= <-] & Hne). congruence.
        * split; [|reflexivity]. intros _. right.
          split; [assumption|]. split; [assumption|]. intros _.
          exists lastView. split; [reflexivity|]. intros ->.
          assert ((Cmp (vs, vr) (vs, vr) =? 0) = true)
            by (apply Cmp_eq_iff; reflexivity).
          congruence.
    - split; [|reflexivity]. intros _. right. tauto. }
  assert (Hnlt : ¬ viewLt (vs, vr) (currentView c))
    by (intros Hl; apply Cmp_lt_iff in Hl; congruence).
  assert (R : ¬ (code = MsgRoundChange ∧ vs ≤ currentSequence c
                 ∧ vr < DesiredRound c
                 ∨ code ≠ MsgRoundChange ∧ viewLt (vs, vr) (currentView c)
                   ∧ (code = MsgCommit →
                      ∃ lastView, LastSubject c = inr lastView
                                  ∧ lastView ≠ (vs, vr)))) by tauto.
  destruct (State_eqb _ _); [split; [discriminate | tauto]|].
  destruct (State_eqb _ _); [|split; [discriminate | tauto]].
  destruct (code >? MsgPreprepare); split; try discriminate; tauto.
Qed.
